(** * snapcast-monitor-kasa: the debounced power-state controller

    A shallow embedding of [src/snapcast_monitor_kasa.py]: the classes
    [AsyncTimer], [State] and [SystemController], together with the part
    of the asyncio event loop they rely on (the table of tasks created by
    [asyncio.create_task], and [Task.cancel]).

    Granularity.  [SystemController.update] and the callback of a timer
    whose sleep has elapsed are each run to completion: they are the two
    kinds of [Event] of the model.  The only suspension points inside
    [update] are those of [_turn_on], which runs in state [IDLE] only,
    where no timer task is alive (lemma [idle_no_live_task]); a timer
    callback that is interleaved with later [update] calls is outside the
    model, as in the specification, which takes updates and timer firings
    to be serialised.

    Every command sent to an outlet and every settle delay is recorded,
    with the task that issued it, in the [trace] of the world; a command
    that fails is recorded before it raises.  Whether an outlet command
    fails is decided by an arbitrary oracle over the history
    ([outlet_fails]), so every theorem holds for every behaviour of the
    power strip.  The calls to [_LOGGER] are not modelled. *)

From Stdlib Require Import ZArith List Bool Lia.
From stdpp Require Import base list strings.
Import ListNotations.

Open Scope Z_scope.
Open Scope list_scope.

(** ** Data model *)

(** [class State(IntEnum)] *)
Inductive State : Type := IDLE | IDLE_COUNTDOWN | MUTE | ACTIVE.

Definition State_value (s : State) : Z :=
  match s with
  | IDLE => 0
  | IDLE_COUNTDOWN => 1
  | MUTE => 2
  | ACTIVE => 3
  end.

(** [==] on an [IntEnum] compares the integer values. *)
Definition State_eqb (a b : State) : bool := State_value a =? State_value b.

(** The Snapcast client as [update] reads it: [client.muted] and
    [client.group.stream_status]. *)
Record Group : Type := { stream_status : string }.
Record Client : Type := { muted : bool; group : Group }.

(** A Kasa power strip: [device.children] is the ordered list of plugs. *)
Definition Plug : Type := string.
Record Device : Type := { children : list Plug }.

(** [AsyncTimer] after [start()]: the timeout and the task running [_run].
    The constructor and [start] are always called back to back
    (lines 109-110 and 129-130), and the callback is always
    [self._turn_off], so neither is a field. *)
Record AsyncTimer : Type := { _timeout : Z; _task : nat }.

Record SystemController : Type := {
  _device : Device;
  _state : State;
  _timer : option AsyncTimer
}.

(** *** The event loop *)

Inductive Call : Type :=
| TurnOn (plug : Plug)
| TurnOff (plug : Plug)
| Sleep (seconds : Z).

Inductive Exn : Type := OutletCommandFailure (call : Call).

(** A task created by [AsyncTimer.start].  [Sleeping]: still awaiting
    [asyncio.sleep(self._timeout)].  [Running must_cancel]: inside the
    callback, [must_cancel] recording a [cancel()] requested meanwhile;
    [_turn_off] asks for it after its last [await], so the coroutine still
    returns and the task then ends cancelled. *)
Inductive TaskStatus : Type :=
| Sleeping
| Running (must_cancel : bool)
| Cancelled
| Finished
| Raised (e : Exn).

Record Task : Type := { delay : Z; status : TaskStatus }.

Inductive Caller : Type := MainLoop | TimerTask (tid : nat).

Definition Entry : Type := (Caller * Call)%type.

Record World : Type := {
  controller : SystemController;
  tasks : list Task;
  trace : list Entry
}.

Definition set_state (s : State) (w : World) : World :=
  {| controller := {| _device := _device (controller w);
                      _state := s;
                      _timer := _timer (controller w) |};
     tasks := tasks w; trace := trace w |}.

Definition set_timer (t : option AsyncTimer) (w : World) : World :=
  {| controller := {| _device := _device (controller w);
                      _state := _state (controller w);
                      _timer := t |};
     tasks := tasks w; trace := trace w |}.

Definition set_tasks (ts : list Task) (w : World) : World :=
  {| controller := controller w; tasks := ts; trace := trace w |}.

Definition log (who : Caller) (c : Call) (w : World) : World :=
  {| controller := controller w; tasks := tasks w;
     trace := trace w ++ [(who, c)] |}.

Definition set_status (s : TaskStatus) (t : Task) : Task :=
  {| delay := delay t; status := s |}.

(** ** A state-and-exception monad for the coroutines *)

Inductive Result (A : Type) : Type :=
| Ok (a : A)
| Raise (e : Exn).
Arguments Ok {A} a.
Arguments Raise {A} e.

Definition M (A : Type) : Type := World -> Result A * World.

Definition ret {A} (a : A) : M A := fun w => (Ok a, w).

Definition bind {A B} (m : M A) (k : A -> M B) : M B :=
  fun w =>
    match m w with
    | (Ok a, w') => k a w'
    | (Raise e, w') => (Raise e, w')
    end.

Notation "x <- m ;; k" := (bind m (fun x => k))
  (at level 100, m at next level, right associativity).
Notation "m ;; k" := (bind m (fun _ => k))
  (at level 100, right associativity).

Definition get : M World := fun w => (Ok w, w).
Definition modify (f : World -> World) : M unit := fun w => (Ok tt, f w).

(** [for x in l: body(x)] *)
Fixpoint for_each {A} (l : list A) (body : A -> M unit) : M unit :=
  match l with
  | [] => ret tt
  | x :: rest => body x ;; for_each rest body
  end.

(** ** class AsyncTimer *)

(** [AsyncTimer(timeout, callback)] followed by [start()]:
    [asyncio.create_task] adds a task to the loop. *)
Definition AsyncTimer_start (timeout : Z) : M AsyncTimer :=
  fun w =>
    (Ok {| _timeout := timeout; _task := length (tasks w) |},
     set_tasks (tasks w ++ [{| delay := timeout; status := Sleeping |}]) w).

(** [Task.cancel()]: a sleeping task is cancelled at once and never runs
    its callback; on the running task the request is recorded; a task
    that is done is left alone. *)
Definition Task_cancel (t : Task) : Task :=
  match status t with
  | Sleeping => set_status Cancelled t
  | Running _ => set_status (Running true) t
  | _ => t
  end.

Definition AsyncTimer_cancel (tm : AsyncTimer) : M unit :=
  modify (fun w => set_tasks (alter Task_cancel (_task tm) (tasks w)) w).

(** The end of a task whose coroutine returned. *)
Definition Task_finish (t : Task) : Task :=
  match status t with
  | Running true => set_status Cancelled t
  | Running false => set_status Finished t
  | _ => t
  end.

(** ** The start of [run]: arguments, discovery, connection

    Lines 147-193 of [run] in [snapcast_monitor_kasa.py], as a function of
    what the environment answers: the devices that [_discover] returns, in
    the order of the dict, and the clients of the server that
    [create_server] returns, or [None] when it raises [OSError].
    [device.update()] is taken to return. *)
Module Monitor.

(** [args]: the three positionals are declared with [nargs="?"] and are
    [None] when not given. *)
Record Args : Type := {
  kasa_device : option string;
  hostname : option string;
  client : option string
}.

(** A discovered Kasa device: its alias, and the strip the controller
    will drive. *)
Record Discovered : Type := { alias : option string; device : Device }.

(** A client of the Snapcast server. *)
Record Snapclient : Type := { friendly_name : string; connected : bool }.

(** Why [run] stops before its loop, named after the message it logs. *)
Inductive Stop : Type :=
| KasaDeviceNotSupplied
| HostnameNotSupplied
| ClientNameNotSupplied
| KasaDeviceNotFound
| ConnectFailed
| ClientNotFound.

(** [exit(1)] everywhere but on line 167, which calls [exit()]. *)
Definition exit_status (stop : Stop) : Z :=
  match stop with
  | KasaDeviceNotFound => 0
  | _ => 1
  end.

Inductive Setup : Type :=
| Exit (stop : Stop)
| Ready (found : Discovered) (snapclient : Snapclient).

(** [==] between two values that may be [None]. *)
Definition option_string_eqb (a b : option string) : bool :=
  match a, b with
  | Some x, Some y => String.eqb x y
  | None, None => true
  | _, _ => false
  end.

Definition is_None {A} (o : option A) : bool :=
  match o with None => true | Some _ => false end.

Definition setup (args : Args) (devices : list (string * Discovered))
    (server : option (list Snapclient)) : Setup :=
  if is_None (kasa_device args) then Exit KasaDeviceNotSupplied
  else if is_None (hostname args) then Exit HostnameNotSupplied
  else if is_None (hostname args) then Exit ClientNameNotSupplied
  else
    match find (fun d => option_string_eqb (alias d) (kasa_device args))
               (map snd devices) with
    | None => Exit KasaDeviceNotFound
    | Some found =>
        match server with
        | None => Exit ConnectFailed
        | Some clients =>
            match find (fun c => option_string_eqb (Some (friendly_name c))
                                   (client args)) clients with
            | None => Exit ClientNotFound
            | Some snapclient => Ready found snapclient
            end
        end
    end.

(** [x] is the first element of [l] that satisfies [P]. *)
Definition first_match {A} (P : A -> bool) (l : list A) (x : A) : Prop :=
  exists pre post,
    l = pre ++ x :: post /\ P x = true /\ forall y, In y pre -> P y = false.

End Monitor.

(** ** snapcast_mpris_proxy.py *)
Module Proxy.

(** [class PlaybackStatus(StrEnum)] *)
Inductive PlaybackStatus : Type := PLAYING | PAUSED | STOPPED.

Definition PlaybackStatus_value (s : PlaybackStatus) : string :=
  match s with
  | PLAYING => "Playing"
  | PAUSED => "Paused"
  | STOPPED => "Stopped"
  end.

(** [==] on a [StrEnum] compares the strings. *)
Definition PlaybackStatus_eqb (a b : PlaybackStatus) : bool :=
  String.eqb (PlaybackStatus_value a) (PlaybackStatus_value b).

(** A [PropertiesChanged] signal: the dict of the changed properties. *)
Definition Signal : Type := list (string * string).

(** [MediaPlayer2PlayerInterface], with the signals it has emitted. *)
Record MediaPlayer2PlayerInterface : Type := {
  _playback_status : PlaybackStatus;
  emitted : list Signal
}.

Definition MediaPlayer2PlayerInterface___init__ : MediaPlayer2PlayerInterface :=
  {| _playback_status := STOPPED; emitted := [] |}.

(** The getter of the D-Bus property. *)
Definition playback_status (self : MediaPlayer2PlayerInterface) : string :=
  PlaybackStatus_value (_playback_status self).

(** The setter. *)
Definition playback_status_setter (status : PlaybackStatus)
    (self : MediaPlayer2PlayerInterface) : MediaPlayer2PlayerInterface :=
  if PlaybackStatus_eqb (_playback_status self) status then self
  else {| _playback_status := status;
          emitted := emitted self
                     ++ [[("PlaybackStatus", PlaybackStatus_value status)]] |}.

(** The Snapcast client as the loop of [run] reads it; here
    [client.group] may be [None]. *)
Record Client : Type := { muted : bool; group : option Group }.

Definition stream_idle (client : Client) : bool :=
  match group client with
  | Some g => String.eqb (stream_status g) "idle"
  | None => true
  end.

Definition client_idle (client : Client) : bool :=
  muted client || stream_idle client.

(** Lines 183-191: the [if] / [elif] / [elif] that sets the status. *)
Definition set_status_from (client : Client)
    (player : MediaPlayer2PlayerInterface) : MediaPlayer2PlayerInterface :=
  if negb (client_idle client) then playback_status_setter PLAYING player
  else if stream_idle client then playback_status_setter STOPPED player
  else if muted client then playback_status_setter PAUSED player
  else player.

(** What a call of [server.start()] does. *)
Inductive StartOutcome : Type :=
| Started
| StartOSError
| StartOtherError.

(** What the proxy does to the server and to the clock; delays are in
    milliseconds ([asyncio.sleep(2)] is [AsyncioSleep 2000],
    [asyncio.sleep(.5)] is [AsyncioSleep 500]). *)
Inductive Action : Type :=
| ServerStop
| ServerStart
| AsyncioSleep (milliseconds : Z).

(** How far a coroutine has got when what is known of the environment is
    used up. *)
Inductive Progress : Type :=
| Returned
| Raised
| Running.

(** The [while True] of [_reconnect], given what the successive calls of
    [server.start()] do. *)
Fixpoint _reconnect_retry (starts : list StartOutcome) : Progress * list Action :=
  match starts with
  | [] => (Running, [])
  | Started :: _ => (Returned, [ServerStart])
  | StartOSError :: rest =>
      let (progress, actions) := _reconnect_retry rest in
      (progress, ServerStart :: AsyncioSleep 2000 :: actions)
  | StartOtherError :: _ => (Raised, [ServerStart])
  end.

Definition _reconnect (starts : list StartOutcome) : Progress * list Action :=
  let (progress, actions) := _reconnect_retry starts in
  (progress, ServerStop :: actions).

(** One answer of [server.status()]: something that is not a dict,
    followed by what [server.start()] does during the reconnection; or a
    dict, after which [server.synchronize] leaves the client as given. *)
Inductive Poll : Type :=
| StatusError (starts : list StartOutcome)
| Status (client : Client).

Record World : Type := {
  player : MediaPlayer2PlayerInterface;
  actions : list Action
}.

(** One turn of the [while True] of [run], lines 163-193. *)
Definition turn (poll : Poll) (w : World) : Progress * World :=
  match poll with
  | StatusError starts =>
      let (progress, done) := _reconnect starts in
      (progress, {| player := player w; actions := actions w ++ done |})
  | Status client =>
      (Returned,
       {| player := set_status_from client (player w);
          actions := actions w ++ [AsyncioSleep 500] |})
  end.

(** The loop over the answers known so far; it never returns. *)
Fixpoint run_loop (polls : list Poll) (w : World) : Progress * World :=
  match polls with
  | [] => (Running, w)
  | poll :: rest =>
      match turn poll w with
      | (Returned, w') => run_loop rest w'
      | stopped => stopped
      end
  end.

(** The status that a client calls for. *)
Definition status_for (client : Client) : PlaybackStatus :=
  if negb (client_idle client) then PLAYING
  else if stream_idle client then STOPPED
  else PAUSED.

(** The signals, read after an imaginary first one that announces the
    initial "Stopped". *)
Definition announced (self : MediaPlayer2PlayerInterface) : list Signal :=
  [("PlaybackStatus", "Stopped")] :: emitted self.

(** No two neighbours of the list are equal. *)
Fixpoint no_repeat {A} (l : list A) : Prop :=
  match l with
  | a :: (b :: _) as rest => a <> b /\ no_repeat rest
  | _ => True
  end.

(** The reconnection succeeds: [server.start()] raises [OSError] some
    number of times and then returns. *)
Definition reconnects (starts : list StartOutcome) : Prop :=
  exists failures rest, starts = repeat StartOSError failures ++ Started :: rest.

Definition all_reconnect (polls : list Poll) : Prop :=
  forall starts, In (StatusError starts) polls -> reconnects starts.

(** The clients of the successful polls, oldest first. *)
Definition fetched (polls : list Poll) : list Client :=
  flat_map (fun poll => match poll with
                        | Status client => [client]
                        | StatusError _ => []
                        end) polls.

End Proxy.

(** The client of the monitor, which always has a group, as the proxy
    reads it. *)
Definition as_polled (client : Client) : Proxy.Client :=
  {| Proxy.muted := muted client; Proxy.group := Some (group client) |}.

(** ** Scenarios

    A three-outlet strip (preamp, amplifier 1, amplifier 2), the four
    kinds of sample, and four behaviours of the strip. *)

Definition strip : Device := {| children := ["A"; "B"; "C"] |}.

Definition playing : Client :=
  {| muted := false; group := {| stream_status := "playing" |} |}.
Definition stopped : Client :=
  {| muted := false; group := {| stream_status := "idle" |} |}.
Definition muted_playing : Client :=
  {| muted := true; group := {| stream_status := "playing" |} |}.
Definition muted_stopped : Client :=
  {| muted := true; group := {| stream_status := "idle" |} |}.

(** Every command succeeds. *)
Definition reliable : list Entry -> Call -> bool := fun _ _ => false.

(** Outlet B cannot be switched on. *)
Definition B_stays_off : list Entry -> Call -> bool :=
  fun _ c => match c with TurnOn plug => String.eqb plug "B" | _ => false end.

(** Outlet B cannot be switched off. *)
Definition B_stays_on : list Entry -> Call -> bool :=
  fun _ c => match c with TurnOff plug => String.eqb plug "B" | _ => false end.

(** Outlet B misses the first turn-on command it is sent. *)
Definition B_slow_start : list Entry -> Call -> bool :=
  fun h c =>
    match c with
    | TurnOn plug =>
        String.eqb plug "B" &&
        negb (existsb (fun e : Entry =>
                         match snd e with
                         | TurnOn q => String.eqb q "B"
                         | _ => false
                         end) h)
    | _ => false
    end.

(** The command line [monitor Amplifier snapserver kitchen], the same
    without the client name, and what the network answers: two devices,
    the second of which has the alias, and a server with two clients. *)
Definition full_args : Monitor.Args :=
  {| Monitor.kasa_device := Some "Amplifier";
     Monitor.hostname := Some "snapserver";
     Monitor.client := Some "kitchen" |}.

Definition args_without_client : Monitor.Args :=
  {| Monitor.kasa_device := Some "Amplifier";
     Monitor.hostname := Some "snapserver";
     Monitor.client := None |}.

Definition amplifier : Monitor.Discovered :=
  {| Monitor.alias := Some "Amplifier"; Monitor.device := strip |}.

Definition discovered : list (string * Monitor.Discovered) :=
  [("192.168.1.20",
    {| Monitor.alias := Some "Lamp"; Monitor.device := {| children := [] |} |});
   ("192.168.1.21", amplifier)].

Definition kitchen : Monitor.Snapclient :=
  {| Monitor.friendly_name := "kitchen"; Monitor.connected := true |}.

Definition snapclients : list Monitor.Snapclient :=
  [{| Monitor.friendly_name := "bedroom"; Monitor.connected := false |};
   kitchen].

(** Polls of the proxy: a client without a group, one that plays, and a
    lost connection that comes back at the third attempt. *)
Definition ungrouped : Proxy.Client :=
  {| Proxy.muted := false; Proxy.group := None |}.

Definition lost_twice : Proxy.Poll :=
  Proxy.StatusError [Proxy.StartOSError; Proxy.StartOSError; Proxy.Started].

Section Controller.

(** Whether a command to an outlet raises, given everything issued so far. *)
Variable outlet_fails : list Entry -> Call -> bool.

(** [await plug.turn_on()] / [await plug.turn_off()] *)
Definition plug_command (who : Caller) (c : Call) : M unit :=
  fun w =>
    if outlet_fails (trace w) c
    then (Raise (OutletCommandFailure c), log who c w)
    else (Ok tt, log who c w).

Definition asyncio_sleep (who : Caller) (seconds : Z) : M unit :=
  modify (log who (Sleep seconds)).

(** ** class SystemController *)

Definition SystemController___init__ (device : Device) : SystemController :=
  {| _device := device; _state := IDLE; _timer := None |}.

Definition _turn_on (who : Caller) : M unit :=
  w <- get ;;
  for_each (children (_device (controller w)))
    (fun plug => plug_command who (TurnOn plug) ;; asyncio_sleep who 1) ;;
  modify (set_state ACTIVE).

Definition _turn_off (who : Caller) : M unit :=
  w <- get ;;
  for_each (rev (children (_device (controller w))))
    (fun plug => plug_command who (TurnOff plug) ;; asyncio_sleep who 1) ;;
  modify (set_state IDLE) ;;
  w <- get ;;
  match _timer (controller w) with
  | Some tm => AsyncTimer_cancel tm ;; modify (set_timer None)
  | None => ret tt
  end.

Definition stream_idle (client : Client) : bool :=
  String.eqb (stream_status (group client)) "idle".

Definition client_idle (client : Client) : bool :=
  muted client || stream_idle client.

Definition update (client : Client) : M unit :=
  if negb (client_idle client) then
    w <- get ;;
    (if State_eqb (_state (controller w)) IDLE
     then _turn_on MainLoop else ret tt) ;;
    modify (set_state ACTIVE) ;;
    w <- get ;;
    match _timer (controller w) with
    | Some tm => AsyncTimer_cancel tm ;; modify (set_timer None)
    | None => ret tt
    end
  else if stream_idle client then
    w <- get ;;
    if State_eqb (_state (controller w)) IDLE
       || State_eqb (_state (controller w)) IDLE_COUNTDOWN
    then ret tt
    else
      (if State_eqb (_state (controller w)) MUTE
       then match _timer (controller w) with
            | Some tm => AsyncTimer_cancel tm ;; modify (set_timer None)
            | None => ret tt
            end
       else ret tt) ;;
      modify (set_state IDLE_COUNTDOWN) ;;
      tm <- AsyncTimer_start 10 ;;
      modify (set_timer (Some tm))
  else if muted client then
    w <- get ;;
    if State_eqb (_state (controller w)) MUTE
       || State_eqb (_state (controller w)) IDLE
    then ret tt
    else
      match _timer (controller w) with
      | Some tm => AsyncTimer_cancel tm ;; modify (set_timer None)
      | None => ret tt
      end ;;
      modify (set_state MUTE) ;;
      tm <- AsyncTimer_start 60 ;;
      modify (set_timer (Some tm))
  else ret tt.

(** [AsyncTimer._run] from the point where [asyncio.sleep(self._timeout)]
    returns: the task awaits the callback, [_turn_off].  Nothing is resumed
    for a task that is not [Sleeping]: a cancelled sleep raises
    [CancelledError] inside [_run] and the callback is never reached.  An
    exception of the callback ends the task and stays in it. *)
Definition AsyncTimer__run (tid : nat) (w : World) : World :=
  match status <$> tasks w !! tid with
  | Some Sleeping =>
      let w1 := set_tasks (alter (set_status (Running false)) tid (tasks w)) w in
      match _turn_off (TimerTask tid) w1 with
      | (Ok _, w2) => set_tasks (alter Task_finish tid (tasks w2)) w2
      | (Raise e, w2) =>
          set_tasks (alter (set_status (Raised e)) tid (tasks w2)) w2
      end
  | _ => w
  end.

(** ** Runs of the system *)

Inductive Event : Type :=
| Update (client : Client)
| TimerElapsed (tid : nat).

Definition step (w : World) (ev : Event) : World :=
  match ev with
  | Update client => snd (update client w)
  | TimerElapsed tid => AsyncTimer__run tid w
  end.

Definition run (evs : list Event) (w : World) : World := fold_left step evs w.

Definition initial (device : Device) : World :=
  {| controller := SystemController___init__ device; tasks := []; trace := [] |}.

Definition reachable (device : Device) (w : World) : Prop :=
  exists evs, w = run evs (initial device).

(** ** Vocabulary of the statements *)

Definition emit (es : list Entry) (w : World) : World :=
  {| controller := controller w; tasks := tasks w; trace := trace w ++ es |}.

(** What a complete sequencing loop over [plugs] records: each command
    followed by the one-second settle delay. *)
Definition power_script (who : Caller) (cmd : Plug -> Call)
    (plugs : list Plug) : list Entry :=
  flat_map (fun plug => [(who, cmd plug); (who, Sleep 1)]) plugs.

(** The [for] loop shared by [_turn_on] and [_turn_off]. *)
Definition power_loop (who : Caller) (cmd : Plug -> Call)
    (plugs : list Plug) : M unit :=
  for_each plugs
    (fun plug => plug_command who (cmd plug) ;; asyncio_sleep who 1).

(** No command of the loop over [plugs] fails when it is issued, the
    history being [h] at the start of the loop. *)
Definition no_failure (h : list Entry) (who : Caller) (cmd : Plug -> Call)
    (plugs : list Plug) : Prop :=
  forall pre plug post,
    plugs = pre ++ plug :: post ->
    outlet_fails (h ++ power_script who cmd pre) (cmd plug) = false.

(** The same, as a check that can be run. *)
Fixpoint runs_clean (h : list Entry) (who : Caller) (cmd : Plug -> Call)
    (plugs : list Plug) : bool :=
  match plugs with
  | [] => true
  | plug :: rest =>
      negb (outlet_fails h (cmd plug)) &&
      runs_clean (h ++ [(who, cmd plug); (who, Sleep 1)]) who cmd rest
  end.

(** [if self._timer: self._timer.cancel(); self._timer = None] *)
Definition drop_timer (w : World) : World :=
  match _timer (controller w) with
  | Some tm =>
      set_timer None (set_tasks (alter Task_cancel (_task tm) (tasks w)) w)
  | None => w
  end.

(** [self._timer = AsyncTimer(timeout, self._turn_off); self._timer.start()] *)
Definition arm (timeout : Z) (w : World) : World :=
  set_timer (Some {| _timeout := timeout; _task := length (tasks w) |})
    (set_tasks (tasks w ++ [{| delay := timeout; status := Sleeping |}]) w).

Definition status_of (w : World) (tid : nat) : option TaskStatus :=
  status <$> tasks w !! tid.

Definition is_sleeping (t : Task) : bool :=
  match status t with Sleeping => true | _ => false end.

(** The delayed actions that are outstanding: created, not yet fired and
    not cancelled. *)
Definition pending (w : World) : list Task := List.filter is_sleeping (tasks w).

Definition is_outlet_command (e : Entry) : bool :=
  match snd e with
  | TurnOn _ | TurnOff _ => true
  | Sleep _ => false
  end.

(** The two sequencing operations, side by side. *)
Inductive Sequencing : Type := PowerUp | PowerDown.

Definition sequencing (d : Sequencing) : Caller -> M unit :=
  match d with PowerUp => _turn_on | PowerDown => _turn_off end.

Definition command_of (d : Sequencing) : Plug -> Call :=
  match d with PowerUp => TurnOn | PowerDown => TurnOff end.

Definition order_of (d : Sequencing) (chain : list Plug) : list Plug :=
  match d with PowerUp => chain | PowerDown => rev chain end.

Definition completion_state (d : Sequencing) : State :=
  match d with PowerUp => ACTIVE | PowerDown => IDLE end.

(** The recovery expected of the controller after a power-down that an
    outlet failure has aborted: the next sample with the stream idle
    leaves a delayed power-off outstanding. *)
Definition power_down_reattempted : Prop :=
  forall (device : Device) (evs : list Event) (tid : nat) (e : Exn)
         (client : Client),
    let w := run evs (initial device) in
    status_of w tid = Some Sleeping ->
    let w' := AsyncTimer__run tid w in
    status_of w' tid = Some (Raised e) ->
    stream_idle client = true ->
    pending (snd (update client w')) <> [].

(** What [Task.cancel] does to a status. *)
Definition cancel_status (s : TaskStatus) : TaskStatus :=
  match s with
  | Sleeping => Cancelled
  | Running _ => Running true
  | _ => s
  end.

(** The invariant of the reachable worlds, as seen between two events. *)
Record Inv (w : World) : Prop := {
  (* the only task that can still fire is the one the controller holds *)
  inv_sleeping : forall tid,
    status_of w tid = Some Sleeping ->
    exists tm, _timer (controller w) = Some tm /\ _task tm = tid;
  (* a timer is held exactly in the two waiting states *)
  inv_timer :
    _timer (controller w) <> None <->
    (_state (controller w) = IDLE_COUNTDOWN \/ _state (controller w) = MUTE);
  (* the short timer belongs to IDLE_COUNTDOWN, the long one to MUTE *)
  inv_timeout : forall tm,
    _timer (controller w) = Some tm ->
    _timeout tm = (if State_eqb (_state (controller w)) MUTE then 60 else 10) /\
    delay <$> tasks w !! _task tm = Some (_timeout tm);
  (* no callback is in progress *)
  inv_running : forall tid b, status_of w tid <> Some (Running b);
  (* a task that has issued something has fired *)
  inv_trace : forall tid c,
    In (TimerTask tid, c) (trace w) ->
    exists s, status_of w tid = Some s /\ s <> Sleeping
}.

(** *** The main loop of [run] and the power strip *)




(** The entries the controller may record for a given chain: turn-on
    commands from the main loop, turn-off commands from timer tasks, both
    to plugs of the chain, and one-second delays. *)
Definition well_issued (chain : list Plug) (e : Entry) : Prop :=
  match e with
  | (MainLoop, TurnOn plug) => In plug chain
  | (TimerTask _, TurnOff plug) => In plug chain
  | (_, Sleep seconds) => seconds = 1
  | _ => False
  end.

(** ** The monad and the loop *)

Lemma State_eqb_eq (a b : State) : State_eqb a b = true <-> a = b.
Proof. destruct a, b; cbn; split; intro H; congruence. Qed.

Lemma emit_nil (w : World) : emit [] w = w.
Proof. destruct w; unfold emit; cbn. now rewrite app_nil_r. Qed.

Lemma emit_emit (a b : list Entry) (w : World) :
  emit b (emit a w) = emit (a ++ b) w.
Proof. unfold emit; cbn. now rewrite app_assoc. Qed.

Lemma power_loop_cons who cmd plug rest (w : World) :
  power_loop who cmd (plug :: rest) w =
  if outlet_fails (trace w) (cmd plug)
  then (Raise (OutletCommandFailure (cmd plug)), emit [(who, cmd plug)] w)
  else power_loop who cmd rest (emit [(who, cmd plug); (who, Sleep 1)] w).
Proof.
  unfold power_loop; cbn [for_each]. unfold bind at 1 2, plug_command.
  destruct (outlet_fails (trace w) (cmd plug)); [reflexivity|].
  unfold asyncio_sleep, modify. f_equal.
  unfold log, emit; cbn. now rewrite <- app_assoc.
Qed.

Lemma no_failure_cons h who cmd plug rest :
  no_failure h who cmd (plug :: rest) ->
  outlet_fails h (cmd plug) = false /\
  no_failure (h ++ [(who, cmd plug); (who, Sleep 1)]) who cmd rest.
Proof.
  intros H; split.
  - specialize (H [] plug rest eq_refl). cbn in H. now rewrite app_nil_r in H.
  - intros pre q post ->. specialize (H (plug :: pre) q post eq_refl).
    cbn in H. now rewrite <- app_assoc.
Qed.

Lemma runs_clean_no_failure who cmd plugs : forall h,
  runs_clean h who cmd plugs = true -> no_failure h who cmd plugs.
Proof.
  induction plugs as [|plug rest IH]; intros h H pre q post E.
  - destruct pre; discriminate.
  - cbn in H. apply andb_true_iff in H as [H0 H1].
    apply negb_true_iff in H0.
    destruct pre as [|p pre]; cbn in E; injection E as -> ->.
    + cbn. now rewrite app_nil_r.
    + specialize (IH _ H1 pre q post eq_refl).
      rewrite <- app_assoc in IH. exact IH.
Qed.

(** A loop none of whose commands fails runs to its end. *)
Lemma power_loop_ok who cmd plugs : forall w,
  no_failure (trace w) who cmd plugs ->
  power_loop who cmd plugs w = (Ok tt, emit (power_script who cmd plugs) w).
Proof.
  induction plugs as [|plug rest IH]; intros w H.
  - cbn. now rewrite emit_nil.
  - apply no_failure_cons in H as [H0 H1].
    rewrite power_loop_cons, H0, IH by exact H1.
    now rewrite emit_emit.
Qed.

(** A loop whose first failing command is the one to [plug] stops there. *)
Lemma power_loop_abort who cmd pre plug post : forall w,
  no_failure (trace w) who cmd pre ->
  outlet_fails (trace w ++ power_script who cmd pre) (cmd plug) = true ->
  power_loop who cmd (pre ++ plug :: post) w =
  (Raise (OutletCommandFailure (cmd plug)),
   emit (power_script who cmd pre ++ [(who, cmd plug)]) w).
Proof.
  induction pre as [|q pre IH]; intros w Hpre Hfail.
  - cbn in Hfail. rewrite app_nil_r in Hfail.
    cbn [app]. now rewrite power_loop_cons, Hfail.
  - apply no_failure_cons in Hpre as [H0 H1].
    cbn [app]. rewrite power_loop_cons, H0, IH.
    + now rewrite emit_emit.
    + exact H1.
    + cbn. rewrite <- app_assoc. exact Hfail.
Qed.

(** Every loop does one or the other. *)
Lemma power_loop_outcome who cmd plugs : forall w,
  power_loop who cmd plugs w = (Ok tt, emit (power_script who cmd plugs) w) \/
  exists pre plug post,
    plugs = pre ++ plug :: post /\
    outlet_fails (trace w ++ power_script who cmd pre) (cmd plug) = true /\
    power_loop who cmd plugs w =
    (Raise (OutletCommandFailure (cmd plug)),
     emit (power_script who cmd pre ++ [(who, cmd plug)]) w).
Proof.
  induction plugs as [|plug rest IH]; intros w.
  - left. cbn. now rewrite emit_nil.
  - rewrite power_loop_cons.
    destruct (outlet_fails (trace w) (cmd plug)) eqn:Hf.
    + right. exists [], plug, rest. cbn. rewrite app_nil_r. auto.
    + destruct (IH (emit [(who, cmd plug); (who, Sleep 1)] w))
        as [Hok | (pre & q & post & -> & Hq & Hr)].
      * left. now rewrite Hok, emit_emit.
      * right. exists (plug :: pre), q, post. split; [reflexivity|]. split.
        -- cbn in Hq |- *. now rewrite <- app_assoc in Hq.
        -- now rewrite Hr, emit_emit.
Qed.

(** ** Equations of the methods *)

Lemma _turn_on_eq who (w : World) :
  _turn_on who w =
  match power_loop who TurnOn (children (_device (controller w))) w with
  | (Ok _, w1) => (Ok tt, set_state ACTIVE w1)
  | (Raise e, w1) => (Raise e, w1)
  end.
Proof.
  unfold _turn_on, power_loop, bind, get, modify.
  destruct (for_each _ _ w) as [[[]|e] w1]; reflexivity.
Qed.

Lemma _turn_off_eq who (w : World) :
  _turn_off who w =
  match power_loop who TurnOff (rev (children (_device (controller w)))) w with
  | (Ok _, w1) => (Ok tt, drop_timer (set_state IDLE w1))
  | (Raise e, w1) => (Raise e, w1)
  end.
Proof.
  unfold _turn_off, power_loop, bind, get, modify.
  destruct (for_each _ _ w) as [[[]|e] w1]; [|reflexivity].
  unfold drop_timer. cbn [set_state controller _timer].
  destruct (_timer (controller w1)); reflexivity.
Qed.

Lemma update_playing (client : Client) (w : World) :
  client_idle client = false ->
  _state (controller w) <> IDLE ->
  update client w = (Ok tt, drop_timer (set_state ACTIVE w)).
Proof.
  intros Hc Hs. unfold update. rewrite Hc. cbn [negb].
  unfold bind at 1, get.
  destruct (State_eqb (_state (controller w)) IDLE) eqn:E.
  { apply State_eqb_eq in E. contradiction. }
  unfold bind, ret, modify, drop_timer. cbn [set_state controller _timer].
  destruct (_timer (controller w)); reflexivity.
Qed.

Lemma update_power_up (client : Client) (w : World) :
  client_idle client = false ->
  _state (controller w) = IDLE ->
  update client w =
  match _turn_on MainLoop w with
  | (Ok _, w1) => (Ok tt, drop_timer (set_state ACTIVE w1))
  | (Raise e, w1) => (Raise e, w1)
  end.
Proof.
  intros Hc Hs. unfold update. rewrite Hc. cbn [negb].
  unfold bind at 1, get. rewrite Hs. cbn [State_eqb State_value Z.eqb].
  unfold bind at 1 2.
  destruct (_turn_on MainLoop w) as [[[]|e] w1]; [|reflexivity].
  unfold bind, get, modify, ret, drop_timer. cbn [set_state controller _timer].
  destruct (_timer (controller w1)); reflexivity.
Qed.

Lemma client_idle_stream (client : Client) :
  stream_idle client = true -> client_idle client = true.
Proof. unfold client_idle. intros ->. apply orb_true_r. Qed.

Lemma update_stream_idle_rest (client : Client) (w : World) :
  stream_idle client = true ->
  _state (controller w) = IDLE \/ _state (controller w) = IDLE_COUNTDOWN ->
  update client w = (Ok tt, w).
Proof.
  intros Hi Hs. unfold update.
  rewrite (client_idle_stream _ Hi), Hi. cbn [negb].
  unfold bind, get. destruct Hs as [-> | ->]; reflexivity.
Qed.

Lemma update_stream_idle_from_mute (client : Client) (w : World) :
  stream_idle client = true ->
  _state (controller w) = MUTE ->
  update client w = (Ok tt, arm 10 (set_state IDLE_COUNTDOWN (drop_timer w))).
Proof.
  intros Hi Hs. unfold update.
  rewrite (client_idle_stream _ Hi), Hi. cbn [negb].
  unfold bind at 1, get. rewrite Hs. cbn [State_eqb State_value Z.eqb orb].
  unfold drop_timer.
  destruct (_timer (controller w)); reflexivity.
Qed.

(** From [ACTIVE] the branch does not look at the timer (line 100 guards
    the cancellation by [self._state == State.MUTE]). *)
Lemma update_stream_idle_from_active (client : Client) (w : World) :
  stream_idle client = true ->
  _state (controller w) = ACTIVE ->
  update client w = (Ok tt, arm 10 (set_state IDLE_COUNTDOWN w)).
Proof.
  intros Hi Hs. unfold update.
  rewrite (client_idle_stream _ Hi), Hi. cbn [negb].
  unfold bind at 1, get. rewrite Hs. cbn [State_eqb State_value Z.eqb orb].
  destruct (_timer (controller w)); reflexivity.
Qed.

Lemma update_muted_rest (client : Client) (w : World) :
  stream_idle client = false -> muted client = true ->
  _state (controller w) = MUTE \/ _state (controller w) = IDLE ->
  update client w = (Ok tt, w).
Proof.
  intros Hi Hm Hs. unfold update, client_idle.
  rewrite Hi, Hm. cbn [negb orb].
  unfold bind, get. destruct Hs as [-> | ->]; reflexivity.
Qed.

Lemma update_muted_arm (client : Client) (w : World) :
  stream_idle client = false -> muted client = true ->
  _state (controller w) = ACTIVE \/ _state (controller w) = IDLE_COUNTDOWN ->
  update client w = (Ok tt, arm 60 (set_state MUTE (drop_timer w))).
Proof.
  intros Hi Hm Hs. unfold update, client_idle.
  rewrite Hi, Hm. cbn [negb orb].
  unfold bind at 1, get. unfold drop_timer.
  destruct Hs as [-> | ->]; cbn [State_eqb State_value Z.eqb orb];
    destruct (_timer (controller w)); reflexivity.
Qed.

Lemma AsyncTimer__run_not_sleeping tid (w : World) :
  status_of w tid <> Some Sleeping -> AsyncTimer__run tid w = w.
Proof.
  unfold AsyncTimer__run, status_of. intros H.
  destruct (status <$> tasks w !! tid) as [[]|]; try reflexivity.
  contradiction.
Qed.

(** ** The task table *)

Lemma status_Task_cancel (t : Task) : status (Task_cancel t) = cancel_status (status t).
Proof. unfold Task_cancel. destruct (status t) eqn:E; cbn; congruence. Qed.

Lemma status_alter (f : Task -> Task) (g : TaskStatus -> TaskStatus)
    (ts : list Task) (i j : nat) :
  (forall t, status (f t) = g (status t)) ->
  status <$> alter f i ts !! j =
  if decide (i = j) then g <$> (status <$> ts !! j) else status <$> ts !! j.
Proof.
  intros Hfg. destruct (decide (i = j)) as [->|Hne].
  - rewrite list_lookup_alter_eq. destruct (ts !! j); cbn; [|reflexivity].
    now rewrite Hfg.
  - now rewrite list_lookup_alter_ne.
Qed.

Lemma delay_alter (f : Task -> Task) (ts : list Task) (i j : nat) :
  (forall t, delay (f t) = delay t) ->
  delay <$> alter f i ts !! j = delay <$> ts !! j.
Proof.
  intros Hf. destruct (decide (i = j)) as [->|Hne].
  - rewrite list_lookup_alter_eq. destruct (ts !! j); cbn; [|reflexivity].
    now rewrite Hf.
  - now rewrite list_lookup_alter_ne.
Qed.

Lemma status_of_drop_timer (w : World) (tid : nat) :
  status_of (drop_timer w) tid =
  match _timer (controller w) with
  | Some tm =>
      if decide (_task tm = tid)
      then cancel_status <$> status_of w tid
      else status_of w tid
  | None => status_of w tid
  end.
Proof.
  unfold drop_timer, status_of.
  destruct (_timer (controller w)) as [tm|]; [|reflexivity].
  cbn [set_timer set_tasks tasks].
  apply status_alter, status_Task_cancel.
Qed.

Lemma length_tasks_drop_timer (w : World) :
  length (tasks (drop_timer w)) = length (tasks w).
Proof.
  unfold drop_timer. destruct (_timer (controller w)); [|reflexivity].
  cbn. apply length_alter.
Qed.

Lemma trace_drop_timer (w : World) : trace (drop_timer w) = trace w.
Proof. unfold drop_timer. now destruct (_timer (controller w)). Qed.

Lemma _state_drop_timer (w : World) :
  _state (controller (drop_timer w)) = _state (controller w).
Proof. unfold drop_timer. now destruct (_timer (controller w)). Qed.

Lemma _device_drop_timer (w : World) :
  _device (controller (drop_timer w)) = _device (controller w).
Proof. unfold drop_timer. now destruct (_timer (controller w)). Qed.

Lemma _timer_drop_timer (w : World) : _timer (controller (drop_timer w)) = None.
Proof. unfold drop_timer. now destruct (_timer (controller w)) eqn:E. Qed.

Lemma drop_timer_None (w : World) :
  _timer (controller w) = None -> drop_timer w = w.
Proof. unfold drop_timer. now intros ->. Qed.

Lemma status_of_arm (timeout : Z) (w : World) (tid : nat) :
  status_of (arm timeout w) tid =
  if decide (tid = length (tasks w)) then Some Sleeping else status_of w tid.
Proof.
  unfold arm, status_of. cbn [set_timer set_tasks tasks].
  destruct (decide (tid = length (tasks w))) as [->|Hne].
  - now rewrite list_lookup_middle.
  - destruct (decide (tid < length (tasks w))%nat) as [Hlt|Hge].
    + now rewrite lookup_app_l.
    + rewrite !(proj2 (lookup_ge_None _ _)); [reflexivity| |].
      * lia.
      * rewrite length_app. cbn. lia.
Qed.

Lemma status_of_lt (w : World) (tid : nat) (s : TaskStatus) :
  status_of w tid = Some s -> (tid < length (tasks w))%nat.
Proof.
  unfold status_of. destruct (tasks w !! tid) eqn:E; [|discriminate].
  intros _. eapply lookup_lt_Some, E.
Qed.

(** ** The invariant is kept by every event *)

Lemma cancel_status_not_sleeping (o : option TaskStatus) :
  cancel_status <$> o <> Some Sleeping.
Proof. destruct o as [[]|]; cbn; congruence. Qed.

Lemma cancel_status_running (o : option TaskStatus) b :
  cancel_status <$> o = Some (Running b) -> exists b', o = Some (Running b').
Proof. destruct o as [[]|]; cbn; try congruence. eauto. Qed.

Lemma status_of_set_state s (w : World) tid :
  status_of (set_state s w) tid = status_of w tid.
Proof. reflexivity. Qed.

(** After [drop_timer] nothing is left to fire. *)
Lemma drop_timer_quiet (w : World) :
  Inv w -> forall tid, status_of (drop_timer w) tid <> Some Sleeping.
Proof.
  intros HI tid. rewrite status_of_drop_timer.
  destruct (_timer (controller w)) as [tm|] eqn:Et.
  - destruct (decide (_task tm = tid)) as [<-|Hne].
    + apply cancel_status_not_sleeping.
    + intros Hs. destruct (inv_sleeping w HI tid Hs) as (tm' & E & <-).
      congruence.
  - intros Hs. destruct (inv_sleeping w HI tid Hs) as (tm' & E & _).
    congruence.
Qed.

Lemma drop_timer_not_running (w : World) :
  Inv w -> forall tid b, status_of (drop_timer w) tid <> Some (Running b).
Proof.
  intros HI tid b. rewrite status_of_drop_timer.
  destruct (_timer (controller w)) as [tm|].
  - destruct (decide (_task tm = tid)).
    + intros H. apply cancel_status_running in H as [b' H].
      exact (inv_running w HI tid b' H).
    + apply (inv_running w HI).
  - apply (inv_running w HI).
Qed.

Lemma drop_timer_fired (w : World) tid :
  Inv w ->
  (exists s, status_of w tid = Some s /\ s <> Sleeping) ->
  exists s, status_of (drop_timer w) tid = Some s /\ s <> Sleeping.
Proof.
  intros HI (s & Hs & Hn).
  destruct (status_of (drop_timer w) tid) as [s'|] eqn:E.
  - exists s'. split; [reflexivity|]. intros ->.
    exact (drop_timer_quiet w HI tid E).
  - exfalso. apply status_of_lt in Hs. unfold status_of in E.
    destruct (tasks (drop_timer w) !! tid) eqn:El; [discriminate|].
    apply lookup_ge_None in El. rewrite length_tasks_drop_timer in El. lia.
Qed.

Lemma Inv_initial (device : Device) : Inv (initial device).
Proof.
  constructor; cbn.
  - discriminate.
  - split; [congruence|]. intros [H|H]; discriminate.
  - discriminate.
  - discriminate.
  - intros _ _ [].
Qed.

Lemma Inv_ext (w w' : World) :
  Inv w ->
  controller w' = controller w -> tasks w' = tasks w ->
  (forall tid c, In (TimerTask tid, c) (trace w') -> In (TimerTask tid, c) (trace w)) ->
  Inv w'.
Proof.
  intros HI Hc Ht Htr. destruct HI as [I1 I2 I3 I4 I5].
  destruct w as [c ts tr], w' as [c' ts' tr']. cbn in Hc, Ht, Htr. subst c' ts'.
  constructor; auto.
  intros tid c0 Hin. apply (I5 tid c0), Htr, Hin.
Qed.

Lemma Inv_emit_main (es : list Entry) (w : World) :
  Inv w -> Forall (fun e => fst e = MainLoop) es -> Inv (emit es w).
Proof.
  intros HI Hes. apply (Inv_ext w); auto.
  intros tid c Hin. cbn in Hin. apply in_app_or in Hin as [Hin|Hin]; [exact Hin|].
  rewrite Forall_forall in Hes. apply list_elem_of_In, Hes in Hin.
  discriminate.
Qed.

Lemma Inv_set_active (w : World) : Inv w -> Inv (drop_timer (set_state ACTIVE w)).
Proof.
  intros HI.
  assert (E : drop_timer (set_state ACTIVE w) = set_state ACTIVE (drop_timer w)).
  { unfold drop_timer. cbn. now destruct (_timer (controller w)). }
  rewrite E. constructor.
  - intros tid H. rewrite status_of_set_state in H.
    now apply drop_timer_quiet in H.
  - cbn. rewrite _timer_drop_timer. split; [congruence|].
    intros [H|H]; discriminate.
  - cbn. now rewrite _timer_drop_timer.
  - intros tid b. rewrite status_of_set_state. now apply drop_timer_not_running.
  - intros tid c H. rewrite status_of_set_state. cbn in H.
    rewrite trace_drop_timer in H.
    apply drop_timer_fired; [exact HI|]. now apply (inv_trace w HI tid c).
Qed.

Lemma Inv_arm (timeout : Z) (s : State) (w : World) :
  Inv w ->
  (s = IDLE_COUNTDOWN /\ timeout = 10) \/ (s = MUTE /\ timeout = 60) ->
  Inv (arm timeout (set_state s (drop_timer w))).
Proof.
  intros HI Hs. constructor.
  - intros tid H. rewrite status_of_arm in H.
    destruct (decide (tid = _)) as [->|Hne].
    + eexists. split; reflexivity.
    + rewrite status_of_set_state in H. now apply drop_timer_quiet in H.
  - cbn. split; [intros _|congruence].
    destruct Hs as [[-> _]|[-> _]]; auto.
  - intros tm E. cbn in E. injection E as <-. cbn. split.
    + destruct Hs as [[-> ->]|[-> ->]]; reflexivity.
    + now rewrite list_lookup_middle.
  - intros tid b. rewrite status_of_arm.
    destruct (decide (tid = _)); [discriminate|].
    rewrite status_of_set_state. now apply drop_timer_not_running.
  - intros tid c H. cbn in H. rewrite trace_drop_timer in H.
    apply (inv_trace w HI) in H. apply (drop_timer_fired w tid HI) in H.
    destruct H as (st & Hst & Hn). exists st. split; [|exact Hn].
    rewrite status_of_arm, status_of_set_state.
    destruct (decide (tid = _)) as [->|Hne]; [|exact Hst].
    apply status_of_lt in Hst. cbn in Hst. lia.
Qed.

Lemma power_script_caller who cmd plugs :
  Forall (fun e : Entry => fst e = who) (power_script who cmd plugs).
Proof.
  induction plugs as [|p rest IH]; cbn; [constructor|].
  repeat constructor. exact IH.
Qed.

Lemma Inv_update (client : Client) (w : World) :
  Inv w -> Inv (snd (update client w)).
Proof.
  intros HI.
  destruct (client_idle client) eqn:Hc.
  - unfold client_idle in Hc.
    destruct (stream_idle client) eqn:Hi.
    + destruct (_state (controller w)) eqn:Hs.
      * rewrite update_stream_idle_rest; auto.
      * rewrite update_stream_idle_rest; auto.
      * rewrite update_stream_idle_from_mute by assumption.
        apply Inv_arm; auto.
      * rewrite update_stream_idle_from_active by assumption.
        assert (Ht : _timer (controller w) = None).
        { destruct (_timer (controller w)) eqn:Et; [|reflexivity].
          destruct (proj1 (inv_timer w HI)); congruence. }
        rewrite <- (drop_timer_None w Ht) at 1.
        apply Inv_arm; auto.
    + rewrite orb_false_r in Hc.
      destruct (_state (controller w)) eqn:Hs.
      * rewrite update_muted_rest; auto.
      * rewrite update_muted_arm; auto. apply Inv_arm; auto.
      * rewrite update_muted_rest; auto.
      * rewrite update_muted_arm; auto. apply Inv_arm; auto.
  - destruct (_state (controller w)) eqn:Hs.
    2-4: rewrite update_playing by congruence; now apply Inv_set_active.
    rewrite update_power_up, _turn_on_eq by assumption.
    destruct (power_loop_outcome MainLoop TurnOn
                (children (_device (controller w))) w)
      as [-> | (pre & p & post & _ & _ & ->)]; cbn [snd].
    + apply (Inv_set_active (emit _ w)), Inv_emit_main; [exact HI|].
      apply power_script_caller.
    + apply Inv_emit_main; [exact HI|].
      apply Forall_app. split; [apply power_script_caller|].
      now repeat constructor.
Qed.

(** ** A timer fires *)

Lemma alter_twice {A} (f g : A -> A) (l : list A) (i : nat) :
  alter f i (alter g i l) = alter (fun x => f (g x)) i l.
Proof.
  revert i. induction l as [|a l IH]; intros [|i]; cbn; f_equal; auto.
Qed.

Lemma AsyncTimer__run_sleeping tid (w : World) :
  status_of w tid = Some Sleeping ->
  AsyncTimer__run tid w =
  match power_loop (TimerTask tid) TurnOff
          (rev (children (_device (controller w))))
          (set_tasks (alter (set_status (Running false)) tid (tasks w)) w) with
  | (Ok _, w2) =>
      set_tasks (alter Task_finish tid (tasks (drop_timer (set_state IDLE w2))))
        (drop_timer (set_state IDLE w2))
  | (Raise e, w2) => set_tasks (alter (set_status (Raised e)) tid (tasks w2)) w2
  end.
Proof.
  intros H. unfold AsyncTimer__run. unfold status_of in H. rewrite H.
  cbv zeta. rewrite _turn_off_eq. cbn [set_tasks controller].
  destruct (power_loop _ _ _ _) as [[[]|e] w2]; reflexivity.
Qed.

(** The callback of the timer the controller holds, when no outlet fails. *)
Lemma AsyncTimer__run_completes tid tm (w : World) :
  status_of w tid = Some Sleeping ->
  _timer (controller w) = Some tm -> _task tm = tid ->
  no_failure (trace w) (TimerTask tid) TurnOff
    (rev (children (_device (controller w)))) ->
  AsyncTimer__run tid w =
  {| controller := {| _device := _device (controller w);
                      _state := IDLE; _timer := None |};
     tasks := alter (set_status Cancelled) tid (tasks w);
     trace := trace w ++ power_script (TimerTask tid) TurnOff
                           (rev (children (_device (controller w)))) |}.
Proof.
  intros Hs Ht Htid Hnf. rewrite AsyncTimer__run_sleeping by exact Hs.
  rewrite power_loop_ok by exact Hnf.
  unfold drop_timer. cbn. rewrite Ht, Htid. cbn.
  rewrite !alter_twice. reflexivity.
Qed.

(** The same callback when the command to [plug] is the first to fail. *)
Lemma AsyncTimer__run_aborts tid pre plug post (w : World) :
  status_of w tid = Some Sleeping ->
  rev (children (_device (controller w))) = pre ++ plug :: post ->
  no_failure (trace w) (TimerTask tid) TurnOff pre ->
  outlet_fails (trace w ++ power_script (TimerTask tid) TurnOff pre)
    (TurnOff plug) = true ->
  AsyncTimer__run tid w =
  {| controller := controller w;
     tasks := alter (set_status (Raised (OutletCommandFailure (TurnOff plug))))
                tid (tasks w);
     trace := trace w ++ power_script (TimerTask tid) TurnOff pre
                      ++ [(TimerTask tid, TurnOff plug)] |}.
Proof.
  intros Hs Hrev Hnf Hf. rewrite AsyncTimer__run_sleeping by exact Hs.
  rewrite Hrev, power_loop_abort by assumption.
  cbn. rewrite alter_twice. reflexivity.
Qed.

Lemma status_of_task_done (s : TaskStatus) (c : SystemController)
    (tr : list Entry) (w : World) (tid tid' : nat) :
  status_of {| controller := c;
               tasks := alter (set_status s) tid (tasks w);
               trace := tr |} tid' =
  if decide (tid = tid') then (fun _ => s) <$> status_of w tid'
  else status_of w tid'.
Proof.
  unfold status_of. cbn [tasks].
  now apply (status_alter (set_status s) (fun _ => s)).
Qed.

(** The world left by a callback that has ended, normally or not. *)
Lemma Inv_task_done (s : TaskStatus) (c : SystemController)
    (es : list Entry) (w : World) (tid : nat) :
  Inv w ->
  status_of w tid = Some Sleeping ->
  s <> Sleeping -> (forall b, s <> Running b) ->
  Forall (fun e : Entry => fst e = TimerTask tid) es ->
  c = controller w \/
  c = {| _device := _device (controller w); _state := IDLE; _timer := None |} ->
  Inv {| controller := c;
         tasks := alter (set_status s) tid (tasks w);
         trace := trace w ++ es |}.
Proof.
  intros HI Hsl Hs Hr Hes Hc.
  destruct (inv_sleeping w HI tid Hsl) as (tm & Etm & Htm).
  constructor.
  - intros tid' H. rewrite status_of_task_done in H.
    destruct (decide (tid = tid')) as [<-|Hne].
    + rewrite Hsl in H. cbn in H. congruence.
    + destruct (inv_sleeping w HI tid' H) as (tm' & E' & H').
      congruence.
  - cbn. destruct Hc as [->| ->]; [apply (inv_timer w HI)|].
    cbn. split; [congruence|]. intros [H|H]; discriminate.
  - cbn. intros tm' E'. destruct Hc as [->| ->]; [|discriminate].
    destruct (inv_timeout w HI tm' E') as [H1 H2]. split; [exact H1|].
    rewrite delay_alter; [exact H2|reflexivity].
  - intros tid' b. rewrite status_of_task_done.
    destruct (decide (tid = tid')) as [<-|Hne].
    + rewrite Hsl. cbn. intros H. injection H as H. exact (Hr b H).
    + apply (inv_running w HI).
  - intros tid' c' Hin. cbn in Hin. rewrite status_of_task_done.
    destruct (decide (tid = tid')) as [<-|Hne].
    + rewrite Hsl. cbn. eauto.
    + apply in_app_or in Hin as [Hin|Hin].
      * exact (inv_trace w HI tid' c' Hin).
      * rewrite Forall_forall in Hes. apply list_elem_of_In, Hes in Hin.
        cbn in Hin. congruence.
Qed.

Lemma fire_ok_world tid tm (es : list Entry) (w : World) :
  _timer (controller w) = Some tm -> _task tm = tid ->
  let w2 := emit es
              (set_tasks (alter (set_status (Running false)) tid (tasks w)) w) in
  set_tasks (alter Task_finish tid (tasks (drop_timer (set_state IDLE w2))))
    (drop_timer (set_state IDLE w2)) =
  {| controller := {| _device := _device (controller w);
                      _state := IDLE; _timer := None |};
     tasks := alter (set_status Cancelled) tid (tasks w);
     trace := trace w ++ es |}.
Proof.
  intros Ht Htid. unfold drop_timer. cbn. rewrite Ht, Htid. cbn.
  now rewrite !alter_twice.
Qed.

Lemma fire_raise_world tid (e : Exn) (es : list Entry) (w : World) :
  let w2 := emit es
              (set_tasks (alter (set_status (Running false)) tid (tasks w)) w) in
  set_tasks (alter (set_status (Raised e)) tid (tasks w2)) w2 =
  {| controller := controller w;
     tasks := alter (set_status (Raised e)) tid (tasks w);
     trace := trace w ++ es |}.
Proof. unfold set_tasks, emit; cbn. now rewrite alter_twice. Qed.

(** The two ways a callback can end, for the timer the controller holds:
    the power-down completes, or the command to some [plug] fails. *)
Lemma fire_outcome (tid : nat) (w : World) :
  Inv w ->
  status_of w tid = Some Sleeping ->
  let order := rev (children (_device (controller w))) in
  AsyncTimer__run tid w =
    {| controller := {| _device := _device (controller w);
                        _state := IDLE; _timer := None |};
       tasks := alter (set_status Cancelled) tid (tasks w);
       trace := trace w ++ power_script (TimerTask tid) TurnOff order |} \/
  exists pre plug post,
    order = pre ++ plug :: post /\
    outlet_fails (trace w ++ power_script (TimerTask tid) TurnOff pre)
      (TurnOff plug) = true /\
    AsyncTimer__run tid w =
    {| controller := controller w;
       tasks := alter (set_status (Raised (OutletCommandFailure (TurnOff plug))))
                  tid (tasks w);
       trace := trace w ++ power_script (TimerTask tid) TurnOff pre
                        ++ [(TimerTask tid, TurnOff plug)] |}.
Proof.
  intros HI Hs order.
  destruct (inv_sleeping w HI tid Hs) as (tm & Etm & Htm).
  rewrite AsyncTimer__run_sleeping by exact Hs. fold order.
  destruct (power_loop_outcome (TimerTask tid) TurnOff order
              (set_tasks (alter (set_status (Running false)) tid (tasks w)) w))
    as [-> | (pre & p & post & E & Hf & ->)].
  - left. now rewrite (fire_ok_world tid tm).
  - right. exists pre, p, post. now rewrite fire_raise_world.
Qed.

Lemma fire_shape (tid : nat) (w : World) :
  Inv w ->
  status_of w tid = Some Sleeping ->
  exists s c es,
    s <> Sleeping /\ (forall b, s <> Running b) /\
    Forall (fun e : Entry => fst e = TimerTask tid) es /\
    (c = controller w \/
     c = {| _device := _device (controller w);
            _state := IDLE; _timer := None |}) /\
    AsyncTimer__run tid w =
    {| controller := c;
       tasks := alter (set_status s) tid (tasks w);
       trace := trace w ++ es |}.
Proof.
  intros HI Hs.
  destruct (inv_sleeping w HI tid Hs) as (tm & Etm & Htm).
  rewrite AsyncTimer__run_sleeping by exact Hs.
  destruct (power_loop_outcome (TimerTask tid) TurnOff
              (rev (children (_device (controller w))))
              (set_tasks (alter (set_status (Running false)) tid (tasks w)) w))
    as [-> | (pre & p & post & _ & _ & ->)].
  - rewrite (fire_ok_world tid tm) by assumption.
    eexists Cancelled, _, _. repeat split; try discriminate; auto.
    apply power_script_caller.
  - rewrite fire_raise_world.
    eexists (Raised _), _, _. repeat split; try discriminate; auto.
    apply Forall_app. split; [apply power_script_caller|].
    now repeat constructor.
Qed.

Lemma Inv_AsyncTimer__run (tid : nat) (w : World) :
  Inv w -> Inv (AsyncTimer__run tid w).
Proof.
  intros HI.
  destruct (status_of w tid) as [[]|] eqn:Hs.
  2-6: rewrite AsyncTimer__run_not_sleeping; [exact HI | congruence].
  destruct (fire_shape tid w HI Hs) as (s & c & es & H1 & H2 & H3 & H4 & ->).
  now apply Inv_task_done.
Qed.

Lemma Inv_step (w : World) (ev : Event) : Inv w -> Inv (step w ev).
Proof.
  destruct ev; cbn; [apply Inv_update | apply Inv_AsyncTimer__run].
Qed.

Lemma Inv_run (evs : list Event) : forall w, Inv w -> Inv (run evs w).
Proof.
  induction evs as [|ev evs IH]; intros w HI; cbn; [exact HI|].
  apply IH, Inv_step, HI.
Qed.

Lemma Inv_reachable (device : Device) (w : World) : reachable device w -> Inv w.
Proof. intros [evs ->]. apply Inv_run, Inv_initial. Qed.

(** In [IDLE] no timer task is alive: nothing can run between the
    suspension points of [_turn_on]. *)
Lemma idle_no_live_task (device : Device) (w : World) (tid : nat) :
  reachable device w ->
  _state (controller w) = IDLE ->
  status_of w tid <> Some Sleeping /\ AsyncTimer__run tid w = w.
Proof.
  intros HR Hs. apply Inv_reachable in HR.
  assert (Hn : status_of w tid <> Some Sleeping).
  { intros H. destruct (inv_sleeping w HR tid H) as (tm & E & _).
    destruct (proj1 (inv_timer w HR)); congruence. }
  split; [exact Hn|]. now apply AsyncTimer__run_not_sleeping.
Qed.

(** ** Sequencing *)

(** The outlet commands of a complete loop are one per plug, in the order
    of the list the loop runs over. *)
Lemma turn_on_commands who plugs :
  map snd (List.filter is_outlet_command (power_script who TurnOn plugs)) =
  map TurnOn plugs.
Proof. induction plugs as [|p rest IH]; cbn; [|rewrite <- IH]; reflexivity. Qed.

Lemma turn_off_commands who plugs :
  map snd (List.filter is_outlet_command (power_script who TurnOff plugs)) =
  map TurnOff plugs.
Proof. induction plugs as [|p rest IH]; cbn; [|rewrite <- IH]; reflexivity. Qed.

(** C1. An [update] with a sample that is not idle, called in state
    [IDLE]: when no turn-on command fails, the update returns normally
    having issued, from the main loop, one turn-on command per outlet in
    chain order (index 0 to N-1), each followed by a one-second settle
    delay, and nothing else; it ends in [ACTIVE] with no timer.  Whatever
    the outlets do, the state is [ACTIVE] afterwards only if the whole
    sequence was issued. *)
Theorem update_from_idle_powers_up (client : Client) (w : World) :
  _state (controller w) = IDLE ->
  client_idle client = false ->
  let chain := children (_device (controller w)) in
  let w' := snd (update client w) in
  (no_failure (trace w) MainLoop TurnOn chain ->
   fst (update client w) = Ok tt /\
   trace w' = trace w ++ power_script MainLoop TurnOn chain /\
   map snd (List.filter is_outlet_command (power_script MainLoop TurnOn chain))
     = map TurnOn chain /\
   _state (controller w') = ACTIVE /\
   _timer (controller w') = None) /\
  (_state (controller w') = ACTIVE ->
   fst (update client w) = Ok tt /\
   trace w' = trace w ++ power_script MainLoop TurnOn chain).
Proof.
  intros Hs Hc chain w'. subst w'.
  rewrite update_power_up, _turn_on_eq by assumption. fold chain. split.
  - intros Hnf. rewrite power_loop_ok by exact Hnf. cbn [fst snd].
    rewrite trace_drop_timer, _state_drop_timer, _timer_drop_timer.
    repeat split. apply turn_on_commands.
  - destruct (power_loop_outcome MainLoop TurnOn chain w)
      as [-> | (pre & p & post & _ & _ & ->)]; cbn [fst snd].
    + intros _. now rewrite trace_drop_timer.
    + cbn. rewrite Hs. discriminate.
Qed.

(** C2. The timer held by the controller fires and no turn-off command
    fails: its callback issues one turn-off command per outlet in reversed
    chain order (index N-1 down to 0), each followed by a one-second settle
    delay, and nothing else; the state is then [IDLE] and the controller's
    timer reference is [None].  The task has ended and cannot fire again. *)
Theorem timer_fires_powers_down (tid : nat) (tm : AsyncTimer) (w : World) :
  _timer (controller w) = Some tm ->
  _task tm = tid ->
  status_of w tid = Some Sleeping ->
  let chain := children (_device (controller w)) in
  no_failure (trace w) (TimerTask tid) TurnOff (rev chain) ->
  let w' := AsyncTimer__run tid w in
  trace w' = trace w ++ power_script (TimerTask tid) TurnOff (rev chain) /\
  map snd (List.filter is_outlet_command
             (power_script (TimerTask tid) TurnOff (rev chain)))
    = map TurnOff (rev chain) /\
  _state (controller w') = IDLE /\
  _timer (controller w') = None /\
  status_of w' tid = Some Cancelled.
Proof.
  intros Ht Htid Hs chain Hnf w'. subst w'.
  rewrite (AsyncTimer__run_completes tid tm) by assumption.
  cbn [trace controller _state _timer]. repeat split.
  - apply turn_off_commands.
  - rewrite status_of_task_done, decide_True, Hs by reflexivity. reflexivity.
Qed.

(** ** The transition table *)

Lemma arm_new_task (timeout : Z) (w : World) :
  tasks (arm timeout w) !! length (tasks w) =
  Some {| delay := timeout; status := Sleeping |}.
Proof. unfold arm; cbn. now rewrite list_lookup_middle. Qed.

Lemma arm_fresh (timeout : Z) (w : World) (tid : nat) (t : Task) :
  tasks (arm timeout w) !! tid = Some t ->
  (length (tasks w) <= tid)%nat ->
  tid = length (tasks w) /\ t = {| delay := timeout; status := Sleeping |}.
Proof.
  unfold arm; cbn. intros H Hle.
  rewrite lookup_app_r in H by exact Hle.
  apply list_lookup_singleton_Some in H as [H1 H2]. split; [lia|congruence].
Qed.

Lemma no_fresh_task (w : World) (tid : nat) (t : Task) :
  tasks w !! tid = Some t -> (length (tasks w) <= tid)%nat -> False.
Proof. intros H Hle. apply lookup_lt_Some in H. lia. Qed.

(** What replacing the timer amounts to: lines 100-110 and 120-130. *)
Lemma rearm_facts (timeout : Z) (s : State) (w : World) :
  let w' := arm timeout (set_state s (drop_timer w)) in
  _state (controller w') = s /\
  _timer (controller w') =
    Some {| _timeout := timeout; _task := length (tasks w) |} /\
  tasks w' !! length (tasks w) =
    Some {| delay := timeout; status := Sleeping |} /\
  (forall tm, _timer (controller w) = Some tm ->
     status_of w (_task tm) = Some Sleeping ->
     status_of w' (_task tm) = Some Cancelled) /\
  (forall tid, (tid < length (tasks w))%nat ->
     (forall tm, _timer (controller w) = Some tm -> _task tm <> tid) ->
     tasks w' !! tid = tasks w !! tid) /\
  trace w' = trace w.
Proof.
  intros w'. subst w'.
  pose proof (length_tasks_drop_timer w) as Hlen.
  split; [reflexivity|]. split; [cbn; now rewrite Hlen|]. split; [|split; [|split]].
  - rewrite <- Hlen.
    exact (arm_new_task timeout (set_state s (drop_timer w))).
  - intros tm Et Hsl. rewrite status_of_arm, status_of_set_state.
    apply status_of_lt in Hsl as Hlt.
    rewrite decide_False by (cbn; rewrite Hlen; lia).
    rewrite status_of_drop_timer, Et, decide_True, Hsl by reflexivity.
    reflexivity.
  - intros tid Hlt Hne. unfold arm. cbn [set_timer set_tasks set_state tasks].
    rewrite lookup_app_l by (rewrite Hlen; exact Hlt).
    unfold drop_timer. destruct (_timer (controller w)) as [tm|] eqn:Et;
      [|reflexivity].
    cbn [set_timer set_tasks tasks].
    rewrite list_lookup_alter_ne; [reflexivity | now apply Hne].
  - cbn. apply trace_drop_timer.
Qed.

(** C3. A sample with the client muted and the stream idle at once takes
    the stream-idle branch in every state: the update returns normally,
    the state afterwards is never [MUTE], and every timer it starts has the
    10-second delay.  From [ACTIVE] or [MUTE] the controller goes to
    [IDLE_COUNTDOWN] holding a new, sleeping 10-second timer, without
    commanding any outlet; from [IDLE] or [IDLE_COUNTDOWN] nothing changes. *)
Theorem stream_idle_dominates_mute (client : Client) (w : World) :
  muted client = true ->
  stream_idle client = true ->
  let w' := snd (update client w) in
  fst (update client w) = Ok tt /\
  _state (controller w') <> MUTE /\
  (forall tid t,
     tasks w' !! tid = Some t -> (length (tasks w) <= tid)%nat -> delay t = 10) /\
  (_state (controller w) = ACTIVE \/ _state (controller w) = MUTE ->
   _state (controller w') = IDLE_COUNTDOWN /\
   _timer (controller w') =
     Some {| _timeout := 10; _task := length (tasks w) |} /\
   tasks w' !! length (tasks w) = Some {| delay := 10; status := Sleeping |} /\
   trace w' = trace w) /\
  (_state (controller w) = IDLE \/ _state (controller w) = IDLE_COUNTDOWN ->
   w' = w).
Proof.
  intros _ Hi w'. subst w'.
  destruct (_state (controller w)) eqn:Hs.
  1-2: rewrite update_stream_idle_rest by auto; cbn [fst snd]; rewrite Hs;
       (split; [reflexivity|]); (split; [discriminate|]);
       (split; [intros tid t H Hle; destruct (no_fresh_task w tid t H Hle)|]);
       (split; [intros [H|H]; discriminate | reflexivity]).
  - rewrite update_stream_idle_from_mute by assumption. cbn [fst snd].
    split; [reflexivity|]. split; [discriminate|]. split; [|split].
    + intros tid t H Hle. apply arm_fresh in H as [_ ->]; [reflexivity|].
      cbn. now rewrite length_tasks_drop_timer.
    + intros _.
      destruct (rearm_facts 10 IDLE_COUNTDOWN w) as (H1 & H2 & H3 & _ & _ & H6).
      auto.
    + intros [H|H]; discriminate.
  - rewrite update_stream_idle_from_active by assumption. cbn [fst snd].
    split; [reflexivity|]. split; [discriminate|]. split; [|split].
    + intros tid t H Hle. now apply arm_fresh in H as [_ ->].
    + intros _. repeat split.
      exact (arm_new_task 10 (set_state IDLE_COUNTDOWN w)).
    + intros [H|H]; discriminate.
Qed.

(** C5. In [IDLE] and in [IDLE_COUNTDOWN] an update whose sample has the
    stream idle returns normally and leaves the world as it was: same
    state, same timer reference, same tasks (the pending timer is neither
    cancelled nor replaced), nothing issued.  So does any sequence of such
    updates. *)
Theorem idle_samples_change_nothing (clients : list Client) (w : World) :
  _state (controller w) = IDLE \/ _state (controller w) = IDLE_COUNTDOWN ->
  Forall (fun client => stream_idle client = true) clients ->
  Forall (fun client => update client w = (Ok tt, w)) clients /\
  run (map Update clients) w = w.
Proof.
  intros Hs Hall. split.
  - eapply Forall_impl; [exact Hall|]. cbn. intros client Hi.
    now apply update_stream_idle_rest.
  - induction Hall as [|client rest Hi _ IH]; cbn; [reflexivity|].
    now rewrite update_stream_idle_rest.
Qed.

(** C6. A sample with the stream active and the client muted.  In [MUTE]
    and in [IDLE] the update changes nothing.  From [ACTIVE] and from
    [IDLE_COUNTDOWN] it returns normally in state [MUTE], holding a new,
    sleeping 60-second timer; the timer held before, if it was still
    sleeping, is cancelled; no outlet command is issued. *)
Theorem muted_sample_starts_long_timer (client : Client) (w : World) :
  stream_idle client = false ->
  muted client = true ->
  let w' := snd (update client w) in
  fst (update client w) = Ok tt /\
  (_state (controller w) = MUTE \/ _state (controller w) = IDLE -> w' = w) /\
  (_state (controller w) = ACTIVE \/ _state (controller w) = IDLE_COUNTDOWN ->
   _state (controller w') = MUTE /\
   _timer (controller w') =
     Some {| _timeout := 60; _task := length (tasks w) |} /\
   tasks w' !! length (tasks w) = Some {| delay := 60; status := Sleeping |} /\
   (forall tm, _timer (controller w) = Some tm ->
      status_of w (_task tm) = Some Sleeping ->
      status_of w' (_task tm) = Some Cancelled) /\
   (forall tid, (tid < length (tasks w))%nat ->
      (forall tm, _timer (controller w) = Some tm -> _task tm <> tid) ->
      tasks w' !! tid = tasks w !! tid) /\
   trace w' = trace w).
Proof.
  intros Hi Hm w'. subst w'.
  destruct (_state (controller w)) eqn:Hs.
  1,3: rewrite update_muted_rest by auto; cbn [fst snd];
       (split; [reflexivity|]); (split; [reflexivity|]);
       intros [H|H]; discriminate.
  all: rewrite update_muted_arm by auto; cbn [fst snd];
       (split; [reflexivity|]); (split; [intros [H|H]; discriminate|]);
       intros _; apply rearm_facts.
Qed.

(** C10. In every world reached from the initial one by updates and timer
    firings (whether or not they complete), the controller holds a timer
    exactly when its state is [IDLE_COUNTDOWN] or [MUTE]; in [IDLE] and in
    [ACTIVE] the reference is [None].  The timer held in [IDLE_COUNTDOWN]
    is the 10-second one, the timer held in [MUTE] the 60-second one. *)
Theorem timer_held_iff_waiting (device : Device) (evs : list Event) :
  let w := run evs (initial device) in
  (_timer (controller w) <> None <->
   _state (controller w) = IDLE_COUNTDOWN \/ _state (controller w) = MUTE) /\
  (_state (controller w) = IDLE \/ _state (controller w) = ACTIVE ->
   _timer (controller w) = None) /\
  (forall tm, _timer (controller w) = Some tm ->
   _timeout tm = if State_eqb (_state (controller w)) MUTE then 60 else 10).
Proof.
  intros w. assert (HI : Inv w) by apply Inv_run, Inv_initial.
  split; [apply (inv_timer w HI)|]. split.
  - intros Hs. destruct (_timer (controller w)) eqn:Et; [|reflexivity].
    destruct (proj1 (inv_timer w HI)) as [H|H]; [congruence| |];
      destruct Hs; congruence.
  - intros tm Et. apply (inv_timeout w HI tm Et).
Qed.

(** ** Timers over a whole run *)

(** The three things an update can do to a reachable world: issue
    commands only; end in [ACTIVE] without a timer; replace the timer. *)
Lemma update_shape (client : Client) (w : World) :
  Inv w ->
  let w' := snd (update client w) in
  (exists es, Forall (fun e : Entry => fst e = MainLoop) es /\ w' = emit es w) \/
  (exists es, Forall (fun e : Entry => fst e = MainLoop) es /\
              w' = drop_timer (set_state ACTIVE (emit es w))) \/
  (exists timeout s, w' = arm timeout (set_state s (drop_timer w))).
Proof.
  intros HI w'. subst w'.
  assert (Hnil : exists es, Forall (fun e : Entry => fst e = MainLoop) es /\
                            w = emit es w).
  { exists []. split; [constructor|]. now rewrite emit_nil. }
  destruct (client_idle client) eqn:Hc.
  - unfold client_idle in Hc.
    destruct (stream_idle client) eqn:Hi.
    + destruct (_state (controller w)) eqn:Hs.
      1-2: rewrite update_stream_idle_rest by auto; left; exact Hnil.
      * rewrite update_stream_idle_from_mute by assumption. right; right; eauto.
      * rewrite update_stream_idle_from_active by assumption. right; right.
        assert (Ht : _timer (controller w) = None).
        { destruct (_timer (controller w)) eqn:Et; [|reflexivity].
          destruct (proj1 (inv_timer w HI)); congruence. }
        exists 10, IDLE_COUNTDOWN. now rewrite (drop_timer_None w Ht).
    + rewrite orb_false_r in Hc.
      destruct (_state (controller w)) eqn:Hs.
      1,3: rewrite update_muted_rest by auto; left; exact Hnil.
      all: rewrite update_muted_arm by auto; right; right; eauto.
  - destruct (_state (controller w)) eqn:Hs.
    2-4: rewrite update_playing by congruence; right; left; exists [];
         (split; [constructor|]); now rewrite emit_nil.
    rewrite update_power_up, _turn_on_eq by assumption.
    destruct (power_loop_outcome MainLoop TurnOn
                (children (_device (controller w))) w)
      as [-> | (pre & p & post & _ & _ & ->)]; cbn [snd].
    + right; left. eexists. split; [apply power_script_caller|reflexivity].
    + left. eexists. split; [|reflexivity].
      apply Forall_app. split; [apply power_script_caller|].
      now repeat constructor.
Qed.

Lemma cancel_status_fired (s : TaskStatus) :
  s <> Sleeping -> (forall b, s <> Running b) -> cancel_status s = s.
Proof. intros H1 H2. destruct s; cbn; congruence. Qed.

Lemma drop_timer_keeps_fired (w : World) (tid : nat) (s : TaskStatus) :
  status_of w tid = Some s -> s <> Sleeping -> (forall b, s <> Running b) ->
  status_of (drop_timer w) tid = Some s.
Proof.
  intros Hs Hn Hr. rewrite status_of_drop_timer.
  destruct (_timer (controller w)); [|exact Hs].
  destruct (decide (_ = _)); [|exact Hs].
  rewrite Hs. cbn. f_equal. now apply cancel_status_fired.
Qed.

Lemma not_issued_by (who : Caller) (tid : nat) (c : Call) (es : list Entry) :
  Forall (fun e : Entry => fst e = who) es ->
  who <> TimerTask tid ->
  ~ In (TimerTask tid, c) es.
Proof.
  intros Hes Hne Hin. rewrite Forall_forall in Hes.
  apply list_elem_of_In, Hes in Hin. cbn in Hin. congruence.
Qed.

(** A task that is no longer sleeping keeps its status for ever and
    issues nothing more. *)
Lemma step_fired (w : World) (ev : Event) (tid : nat) (s : TaskStatus) :
  Inv w -> status_of w tid = Some s -> s <> Sleeping ->
  status_of (step w ev) tid = Some s /\
  forall c, In (TimerTask tid, c) (trace (step w ev)) ->
            In (TimerTask tid, c) (trace w).
Proof.
  intros HI Hs Hn.
  assert (Hr : forall b, s <> Running b).
  { intros b ->. exact (inv_running w HI tid b Hs). }
  destruct ev as [client|tid']; cbn [step].
  - destruct (update_shape client w HI)
      as [(es & Hes & ->) | [(es & Hes & ->) | (timeout & st & ->)]].
    + split; [exact Hs|]. intros c Hin. cbn in Hin.
      apply in_app_or in Hin as [Hin|Hin]; [exact Hin|].
      now apply (not_issued_by MainLoop tid c es) in Hin.
    + split.
      * now apply (drop_timer_keeps_fired (set_state ACTIVE (emit es w))).
      * intros c Hin. rewrite trace_drop_timer in Hin. cbn in Hin.
        apply in_app_or in Hin as [Hin|Hin]; [exact Hin|].
        now apply (not_issued_by MainLoop tid c es) in Hin.
    + split.
      * rewrite status_of_arm, status_of_set_state.
        apply status_of_lt in Hs as Hlt.
        rewrite decide_False by (cbn; rewrite length_tasks_drop_timer; lia).
        now apply drop_timer_keeps_fired.
      * intros c Hin. cbn in Hin. now rewrite trace_drop_timer in Hin.
  - destruct (status_of w tid') as [[]|] eqn:Hs'.
    2-6: rewrite AsyncTimer__run_not_sleeping by congruence; auto.
    destruct (fire_shape tid' w HI Hs')
      as (s' & c' & es & _ & _ & Hes & _ & ->).
    assert (Hne : tid' <> tid) by congruence.
    split.
    + now rewrite status_of_task_done, decide_False.
    + intros c Hin. cbn in Hin.
      apply in_app_or in Hin as [Hin|Hin]; [exact Hin|].
      apply (not_issued_by (TimerTask tid') tid c es) in Hin; [easy|exact Hes|].
      congruence.
Qed.

Lemma run_fired (evs : list Event) (tid : nat) (s : TaskStatus) : forall w,
  Inv w -> status_of w tid = Some s -> s <> Sleeping ->
  status_of (run evs w) tid = Some s /\
  forall c, In (TimerTask tid, c) (trace (run evs w)) ->
            In (TimerTask tid, c) (trace w).
Proof.
  induction evs as [|ev evs IH]; intros w HI Hs Hn; cbn; [auto|].
  destruct (step_fired w ev tid s HI Hs Hn) as [H1 H2].
  destruct (IH (step w ev) (Inv_step w ev HI) H1 Hn) as [H3 H4].
  split; [exact H3|]. intros c Hin. apply H2, H4, Hin.
Qed.

(** C4. In a reachable world in state [IDLE_COUNTDOWN] whose timer is still
    sleeping, an update with a sample that is not idle returns normally,
    cancels that timer, drops the reference and sets the state to [ACTIVE]
    without issuing anything.  Whatever events follow, the task stays
    cancelled and no entry of the trace, hence no power-down command, is
    ever issued by it. *)
Theorem cancelled_timer_never_powers_down (device : Device) (client : Client)
    (tm : AsyncTimer) (w : World) :
  reachable device w ->
  _state (controller w) = IDLE_COUNTDOWN ->
  _timer (controller w) = Some tm ->
  status_of w (_task tm) = Some Sleeping ->
  client_idle client = false ->
  let w' := snd (update client w) in
  fst (update client w) = Ok tt /\
  _state (controller w') = ACTIVE /\
  _timer (controller w') = None /\
  trace w' = trace w /\
  forall evs,
    status_of (run evs w') (_task tm) = Some Cancelled /\
    forall c, ~ In (TimerTask (_task tm), c) (trace (run evs w')).
Proof.
  intros HR Hs Ht Hsl Hc w'. apply Inv_reachable in HR.
  assert (HI' : Inv w') by apply Inv_update, HR.
  subst w'. rewrite update_playing in * by congruence. cbn [fst snd] in *.
  rewrite _state_drop_timer, _timer_drop_timer, trace_drop_timer.
  assert (Hcan : status_of (drop_timer (set_state ACTIVE w)) (_task tm)
                 = Some Cancelled).
  { rewrite status_of_drop_timer. cbn [set_state controller _timer].
    rewrite Ht, decide_True, status_of_set_state, Hsl by reflexivity.
    reflexivity. }
  do 4 (split; [reflexivity|]). intros evs.
  destruct (run_fired evs (_task tm) Cancelled _ HI' Hcan) as [H1 H2];
    [discriminate|].
  split; [exact H1|]. intros c Hin. apply H2 in Hin.
  rewrite trace_drop_timer in Hin. cbn in Hin.
  destruct (inv_trace w HR _ c Hin) as (s & Hs' & Hn). congruence.
Qed.

Lemma is_sleeping_status (t : Task) :
  is_sleeping t = true <-> status t = Sleeping.
Proof. unfold is_sleeping. destruct (status t); split; congruence. Qed.

Lemma filter_sleeping_nil (ts : list Task) :
  (forall i, status <$> ts !! i <> Some Sleeping) ->
  List.filter is_sleeping ts = [].
Proof.
  induction ts as [|t ts IH]; intros H; cbn; [reflexivity|].
  destruct (is_sleeping t) eqn:E.
  - apply is_sleeping_status in E. specialize (H 0%nat). cbn in H. congruence.
  - apply IH. intros i. exact (H (S i)).
Qed.

Lemma filter_sleeping_at_most_one (ts : list Task) :
  (forall i j, status <$> ts !! i = Some Sleeping ->
               status <$> ts !! j = Some Sleeping -> i = j) ->
  (length (List.filter is_sleeping ts) <= 1)%nat.
Proof.
  induction ts as [|t ts IH]; intros H; cbn; [lia|].
  destruct (is_sleeping t) eqn:E.
  - apply is_sleeping_status in E. rewrite filter_sleeping_nil; [cbn; lia|].
    intros i Hi. specialize (H 0%nat (S i)). cbn in H.
    rewrite E in H. specialize (H eq_refl Hi). discriminate.
  - apply IH. intros i j Hi Hj. specialize (H (S i) (S j) Hi Hj). lia.
Qed.

Lemma pending_at_most_one (w : World) : Inv w -> (length (pending w) <= 1)%nat.
Proof.
  intros HI. apply filter_sleeping_at_most_one. intros i j Hi Hj.
  destruct (inv_sleeping w HI i Hi) as (tm & E & <-).
  destruct (inv_sleeping w HI j Hj) as (tm' & E' & <-).
  congruence.
Qed.

(** C9. In every world reached from the initial one by updates and timer
    firings, at most one delayed action is outstanding.  An update that
    starts a timer leaves it as the only one: every task created before is
    cancelled or has fired, and the controller holds the new one. *)
Theorem at_most_one_delayed_action (device : Device) (evs : list Event) :
  let w := run evs (initial device) in
  (length (pending w) <= 1)%nat /\
  forall client,
    let w' := snd (update client w) in
    (length (tasks w) < length (tasks w'))%nat ->
    (forall tid, (tid < length (tasks w))%nat ->
                 status_of w' tid <> Some Sleeping) /\
    exists timeout,
      pending w' = [{| delay := timeout; status := Sleeping |}] /\
      _timer (controller w') =
        Some {| _timeout := timeout; _task := length (tasks w) |}.
Proof.
  intros w. assert (HI : Inv w) by apply Inv_run, Inv_initial.
  split; [now apply pending_at_most_one|].
  intros client w' Hlen. subst w'.
  destruct (update_shape client w HI)
    as [(es & Hes & E) | [(es & Hes & E) | (timeout & st & E)]];
    rewrite E in *.
  - cbn in Hlen. lia.
  - rewrite length_tasks_drop_timer in Hlen. cbn in Hlen. lia.
  - clear Hlen. split.
    + intros tid Hlt. rewrite status_of_arm, status_of_set_state.
      rewrite decide_False by (cbn; rewrite length_tasks_drop_timer; lia).
      now apply drop_timer_quiet.
    + exists timeout. split.
      * unfold pending, arm. cbn [set_timer set_tasks set_state tasks].
        rewrite List.filter_app, filter_sleeping_nil; [reflexivity|].
        intros i. now apply drop_timer_quiet.
      * cbn. now rewrite length_tasks_drop_timer.
Qed.

(** ** Outlet failures *)

Lemma sequencing_eq (d : Sequencing) who (w : World) :
  sequencing d who w =
  match power_loop who (command_of d)
          (order_of d (children (_device (controller w)))) w with
  | (Ok _, w1) =>
      (Ok tt,
       match d with
       | PowerUp => set_state ACTIVE w1
       | PowerDown => drop_timer (set_state IDLE w1)
       end)
  | (Raise e, w1) => (Raise e, w1)
  end.
Proof.
  destruct d; cbn [sequencing command_of order_of].
  - rewrite _turn_on_eq. now destruct (power_loop _ _ _ _) as [[[]|] ?].
  - rewrite _turn_off_eq. now destruct (power_loop _ _ _ _) as [[[]|] ?].
Qed.

(** C7. The command to [plug] is the first of a power-up or power-down
    sequence to fail, the outlets of [pre] having been commanded before it
    and those of [post] being still to come.  The sequencing operation
    raises the failure; the trace ends with the failed command, so no
    outlet of [post] is commanded; the controller is as it was, its state
    set neither to [ACTIVE] nor to [IDLE].  The failure reaches the caller:
    an update that was powering up raises it and leaves the state [IDLE];
    a timer task that was powering down ends with it and leaves the state
    untouched. *)
Theorem outlet_failure_aborts_sequencing (d : Sequencing) (who : Caller)
    (pre : list Plug) (plug : Plug) (post : list Plug) (w : World) :
  order_of d (children (_device (controller w))) = pre ++ plug :: post ->
  no_failure (trace w) who (command_of d) pre ->
  outlet_fails (trace w ++ power_script who (command_of d) pre)
    (command_of d plug) = true ->
  let failure := OutletCommandFailure (command_of d plug) in
  let issued := power_script who (command_of d) pre ++ [(who, command_of d plug)] in
  let w' := snd (sequencing d who w) in
  fst (sequencing d who w) = Raise failure /\
  trace w' = trace w ++ issued /\
  controller w' = controller w /\
  tasks w' = tasks w /\
  (_state (controller w) <> completion_state d ->
   _state (controller w') <> completion_state d) /\
  match d with
  | PowerUp =>
      forall client,
        who = MainLoop ->
        _state (controller w) = IDLE ->
        client_idle client = false ->
        update client w = (Raise failure, w') /\
        _state (controller w') = IDLE
  | PowerDown =>
      forall tid,
        who = TimerTask tid ->
        status_of w tid = Some Sleeping ->
        let w'' := AsyncTimer__run tid w in
        controller w'' = controller w /\
        status_of w'' tid = Some (Raised failure) /\
        trace w'' = trace w ++ issued
  end.
Proof.
  intros Horder Hpre Hfail failure issued w'. subst w' failure issued.
  rewrite sequencing_eq, Horder, power_loop_abort by assumption.
  cbn [fst snd emit controller tasks trace].
  do 4 (split; [reflexivity|]). split; [auto|].
  destruct d; cbn [command_of order_of] in *.
  - intros client -> Hs Hc.
    rewrite update_power_up, _turn_on_eq, Horder, power_loop_abort
      by assumption.
    split; [reflexivity|exact Hs].
  - intros tid -> Hs.
    rewrite (AsyncTimer__run_aborts tid pre plug post) by assumption.
    cbn [controller trace]. split; [reflexivity|]. split; [|reflexivity].
    now rewrite status_of_task_done, decide_True, Hs.
Qed.

(** C8, as the code has it.  After a power-up that an outlet failure has
    aborted, the controller is still in [IDLE] with the timer reference it
    had, and the next sample that is not idle runs the whole power-up
    sequence again, from the first outlet.  After a power-down that an
    outlet failure has aborted, the state and the timer reference are what
    they were when the timer fired: in [MUTE] the next sample with the
    stream idle starts a new 10-second delayed power-off; in
    [IDLE_COUNTDOWN] it changes nothing. *)
Theorem retry_after_outlet_failure (device : Device) (w : World) :
  reachable device w ->
  (forall client client' e w',
     _state (controller w) = IDLE ->
     client_idle client = false ->
     update client w = (Raise e, w') ->
     client_idle client' = false ->
     _state (controller w') = IDLE /\
     _timer (controller w') = _timer (controller w) /\
     let chain := children (_device (controller w)) in
     let w'' := snd (update client' w') in
     (no_failure (trace w') MainLoop TurnOn chain ->
      fst (update client' w') = Ok tt /\
      trace w'' = trace w' ++ power_script MainLoop TurnOn chain /\
      _state (controller w'') = ACTIVE)) /\
  (forall tid e client,
     status_of w tid = Some Sleeping ->
     let w' := AsyncTimer__run tid w in
     status_of w' tid = Some (Raised e) ->
     stream_idle client = true ->
     controller w' = controller w /\
     let w'' := snd (update client w') in
     (_state (controller w) = MUTE ->
      _state (controller w'') = IDLE_COUNTDOWN /\
      _timer (controller w'') =
        Some {| _timeout := 10; _task := length (tasks w') |} /\
      pending w'' = [{| delay := 10; status := Sleeping |}]) /\
     (_state (controller w) = IDLE_COUNTDOWN ->
      update client w' = (Ok tt, w') /\ pending w' = [])).
Proof.
  intros HR. apply Inv_reachable in HR. split.
  - intros client client' e w' Hs Hc Hup Hc'.
    rewrite update_power_up, _turn_on_eq in Hup by assumption.
    destruct (power_loop_outcome MainLoop TurnOn
                (children (_device (controller w))) w)
      as [E | (pre & p & post & _ & _ & E)];
      rewrite E in Hup; [discriminate|].
    injection Hup as _ <-. cbn [emit controller].
    split; [exact Hs|]. split; [reflexivity|].
    intros Hnf.
    rewrite update_power_up, _turn_on_eq by assumption.
    cbn [emit controller] in *.
    rewrite power_loop_ok by exact Hnf. cbn [fst snd].
    rewrite trace_drop_timer, _state_drop_timer. auto.
  - intros tid e client Hsl w' Hraised Hi.
    assert (HI' : Inv w') by apply Inv_AsyncTimer__run, HR.
    assert (Hquiet : forall i, status_of w' i <> Some Sleeping).
    { intros i Hi'. destruct (inv_sleeping w' HI' i Hi') as (tm' & E' & <-).
      destruct (inv_sleeping w HR tid Hsl) as (tm & E & <-).
      subst w'. destruct (fire_outcome _ w HR Hsl)
        as [E1 | (pre & p & post & _ & _ & E1)]; rewrite E1 in *.
      - cbn in E'. discriminate.
      - cbn in E'. assert (tm' = tm) by congruence. subst tm'.
        rewrite status_of_task_done, decide_True, Hsl in Hi' by reflexivity.
        discriminate. }
    subst w'.
    destruct (fire_outcome tid w HR Hsl)
      as [E1 | (pre & p & post & _ & _ & E1)]; rewrite E1 in *.
    { rewrite status_of_task_done, decide_True, Hsl in Hraised by reflexivity.
      discriminate. }
    cbn [controller]. split; [reflexivity|]. split.
    + intros Hs. rewrite update_stream_idle_from_mute by assumption.
      destruct (rearm_facts 10 IDLE_COUNTDOWN
                  {| controller := controller w;
                     tasks := alter (set_status (Raised (OutletCommandFailure
                                                           (TurnOff p))))
                                tid (tasks w);
                     trace := trace w ++ power_script (TimerTask tid) TurnOff pre
                                      ++ [(TimerTask tid, TurnOff p)] |})
        as (H1 & H2 & _).
      cbn [snd]. split; [exact H1|]. split; [exact H2|].
      unfold pending, arm. cbn [set_timer set_tasks set_state tasks].
      rewrite List.filter_app, filter_sleeping_nil; [reflexivity|].
      intros i. apply drop_timer_quiet. exact HI'.
    + intros Hs. split; [now apply update_stream_idle_rest; auto|].
      apply filter_sleeping_nil. exact Hquiet.
Qed.

(** ** Beyond the transition table: errors, outlets and the main loop *)

(** Everything an update can do, in any world. *)
Lemma update_cases (client : Client) (w : World) :
  let chain := children (_device (controller w)) in
  update client w = (Ok tt, w) \/
  (_state (controller w) = IDLE /\ client_idle client = false /\
   (update client w =
      (Ok tt, drop_timer (set_state ACTIVE
                            (emit (power_script MainLoop TurnOn chain) w))) \/
    exists pre plug post,
      chain = pre ++ plug :: post /\
      outlet_fails (trace w ++ power_script MainLoop TurnOn pre)
        (TurnOn plug) = true /\
      update client w =
        (Raise (OutletCommandFailure (TurnOn plug)),
         emit (power_script MainLoop TurnOn pre ++ [(MainLoop, TurnOn plug)]) w))) \/
  (_state (controller w) <> IDLE /\ client_idle client = false /\
   update client w = (Ok tt, drop_timer (set_state ACTIVE w))) \/
  (_state (controller w) <> IDLE /\ client_idle client = true /\
   exists timeout s w0,
     s <> IDLE /\ (w0 = w \/ w0 = drop_timer w) /\
     update client w = (Ok tt, arm timeout (set_state s w0))).
Proof.
  intros chain.
  destruct (client_idle client) eqn:Hc.
  - unfold client_idle in Hc.
    destruct (stream_idle client) eqn:Hi.
    + destruct (_state (controller w)) eqn:Hs.
      1-2: left; apply update_stream_idle_rest; auto.
      * do 3 right. do 2 (split; [congruence|]).
        exists 10, IDLE_COUNTDOWN, (drop_timer w).
        split; [discriminate|]. split; [now right|].
        now apply update_stream_idle_from_mute.
      * do 3 right. do 2 (split; [congruence|]).
        exists 10, IDLE_COUNTDOWN, w.
        split; [discriminate|]. split; [now left|].
        now apply update_stream_idle_from_active.
    + rewrite orb_false_r in Hc.
      destruct (_state (controller w)) eqn:Hs.
      1,3: left; apply update_muted_rest; auto.
      all: do 3 right; do 2 (split; [congruence|]);
        exists 60, MUTE, (drop_timer w);
        (split; [discriminate|]); (split; [now right|]);
        apply update_muted_arm; auto.
  - destruct (_state (controller w)) eqn:Hs.
    2-4: right; right; left; do 2 (split; [congruence|]);
         apply update_playing; congruence.
    right; left. do 2 (split; [reflexivity|]).
    rewrite update_power_up, _turn_on_eq by assumption. fold chain.
    destruct (power_loop_outcome MainLoop TurnOn chain w)
      as [-> | (pre & p & post & E & Hf & ->)].
    + left. reflexivity.
    + right. exists pre, p, post. auto.
Qed.



(** What one event adds to the trace of a world that satisfies the
    invariant: nothing, a whole power-up, a whole power-down, or a
    sequence cut short by the failure of a command. *)
Lemma step_power (w : World) (ev : Event) :
  Inv w ->
  let w' := step w ev in
  let chain := children (_device (controller w)) in
  _device (controller w') = _device (controller w) /\
  ((trace w' = trace w /\
    (_state (controller w') = IDLE <-> _state (controller w) = IDLE)) \/
   (trace w' = trace w ++ power_script MainLoop TurnOn chain /\
    _state (controller w') = ACTIVE) \/
   (exists tid,
      trace w' = trace w ++ power_script (TimerTask tid) TurnOff (rev chain) /\
      _state (controller w') = IDLE) \/
   (exists pre plug post,
      controller w' = controller w /\
      ((chain = pre ++ plug :: post /\
        outlet_fails (trace w ++ power_script MainLoop TurnOn pre)
          (TurnOn plug) = true /\
        trace w' = trace w ++ power_script MainLoop TurnOn pre
                           ++ [(MainLoop, TurnOn plug)]) \/
       (exists tid,
          rev chain = pre ++ plug :: post /\
          outlet_fails (trace w ++ power_script (TimerTask tid) TurnOff pre)
            (TurnOff plug) = true /\
          trace w' = trace w ++ power_script (TimerTask tid) TurnOff pre
                             ++ [(TimerTask tid, TurnOff plug)])))).
Proof.
  intros HI w' chain. subst w'. destruct ev as [client|tid]; cbn [step].
  - destruct (update_cases client w)
      as [E | [(Hs & Hc & [E | (pre & p & post & Hch & Hf & E)])
            | [(Hs & _ & E) | (Hs & _ & t & s & w0 & Hn & Hw0 & E)]]];
      rewrite E; cbn [snd].
    + split; [reflexivity|]. left. tauto.
    + rewrite _device_drop_timer, trace_drop_timer, _state_drop_timer.
      split; [reflexivity|]. right; left. auto.
    + split; [reflexivity|]. do 3 right. exists pre, p, post.
      split; [reflexivity|]. left. auto.
    + rewrite _device_drop_timer, trace_drop_timer, _state_drop_timer.
      split; [reflexivity|]. left. split; [reflexivity|].
      cbn. split; intros H; [discriminate|contradiction].
    + destruct Hw0 as [-> | ->]; cbn;
        rewrite ?_device_drop_timer, ?trace_drop_timer;
        (split; [reflexivity|]); left; (split; [reflexivity|]);
        split; intros H; contradiction.
  - destruct (status_of w tid) as [[]|] eqn:Hs.
    2-6: rewrite AsyncTimer__run_not_sleeping by congruence;
         split; [reflexivity|]; left; tauto.
    destruct (fire_outcome tid w HI Hs)
      as [E | (pre & p & post & Hch & Hf & E)]; rewrite E; cbn.
    + split; [reflexivity|]. right; right; left. exists tid. auto.
    + split; [reflexivity|]. do 3 right. exists pre, p, post.
      split; [reflexivity|]. right. exists tid. auto.
Qed.






Lemma power_script_well_issued chain who cmd (plugs : list Plug) :
  (forall plug, In plug plugs -> In plug chain) ->
  (who = MainLoop /\ cmd = TurnOn) \/ (exists tid, who = TimerTask tid /\ cmd = TurnOff) ->
  Forall (well_issued chain) (power_script who cmd plugs).
Proof.
  intros Hin Hwho. induction plugs as [|p rest IH]; cbn; [constructor|].
  assert (Hp : In p chain) by (apply Hin; now left).
  constructor; [|constructor].
  - destruct Hwho as [[-> ->] | (tid & -> & ->)]; exact Hp.
  - destruct Hwho as [[-> ->] | (tid & -> & ->)]; reflexivity.
  - apply IH. intros q Hq. apply Hin. now right.
Qed.

(** X3. Who commands what.  In every world reached from the initial one,
    the trace holds nothing but: turn-on commands issued by the main loop,
    turn-off commands issued by timer tasks, both to plugs of the device
    the controller was built with, and one-second delays.  So an update
    never switches an outlet off, a timer never switches one on, and no
    other outlet is ever commanded. *)
Theorem commands_well_issued (device : Device) (evs : list Event) :
  Forall (well_issued (children device)) (trace (run evs (initial device))).
Proof.
  assert (H : forall evs w,
             Inv w -> _device (controller w) = device ->
             Forall (well_issued (children device)) (trace w) ->
             Forall (well_issued (children device)) (trace (run evs w))).
  { clear evs. induction evs as [|ev evs IH]; intros w HI Hd HP; cbn; [exact HP|].
    destruct (step_power w ev HI) as (Hd' & Hcases).
    apply IH; [apply Inv_step, HI | congruence |].
    rewrite Hd in Hcases.
    destruct Hcases
      as [(-> & Hs) | [(-> & _) | [(tid & -> & _)
         | (pre & p & post & _ &
            [(Hch & _ & ->) | (tid & Hch & _ & ->)])]]].
    - exact HP.
    - apply Forall_app. split; [exact HP|].
      apply power_script_well_issued; auto.
    - apply Forall_app. split; [exact HP|].
      apply power_script_well_issued; [|eauto].
      intros q Hq. now apply in_rev.
    - apply Forall_app. split; [exact HP|]. apply Forall_app. split.
      + apply power_script_well_issued; [|auto].
        intros q Hq. rewrite Hch. apply in_or_app. now left.
      + constructor; [|constructor]. cbn. rewrite Hch.
        apply in_or_app. right. now left.
    - apply Forall_app. split; [exact HP|]. apply Forall_app. split.
      + apply power_script_well_issued; [|eauto].
        intros q Hq. apply in_rev. rewrite Hch. apply in_or_app. now left.
      + constructor; [|constructor]. cbn. apply in_rev. rewrite Hch.
        apply in_or_app. right. now left. }
  apply H; [apply Inv_initial | reflexivity | constructor].
Qed.






End Controller.

(** ** The scenarios of the specification, run *)

Lemma update_from_idle_powers_up_witness :
  let w' := snd (update reliable playing (initial strip)) in
  trace w' =
    [(MainLoop, TurnOn "A"); (MainLoop, Sleep 1);
     (MainLoop, TurnOn "B"); (MainLoop, Sleep 1);
     (MainLoop, TurnOn "C"); (MainLoop, Sleep 1)] /\
  _state (controller w') = ACTIVE.
Proof.
  destruct (update_from_idle_powers_up reliable playing (initial strip)
              eq_refl eq_refl) as [H _].
  destruct H as (_ & Ht & _ & Hs & _).
  { apply runs_clean_no_failure. reflexivity. }
  split; [exact Ht | exact Hs].
Defined.

Lemma timer_fires_powers_down_witness :
  let w := run reliable [Update playing; Update stopped] (initial strip) in
  let w' := AsyncTimer__run reliable 0 w in
  status_of w 0 = Some Sleeping /\
  trace w' =
    trace w ++ [(TimerTask 0, TurnOff "C"); (TimerTask 0, Sleep 1);
                (TimerTask 0, TurnOff "B"); (TimerTask 0, Sleep 1);
                (TimerTask 0, TurnOff "A"); (TimerTask 0, Sleep 1)] /\
  _state (controller w') = IDLE /\
  _timer (controller w') = None.
Proof.
  intros w w'.
  destruct (timer_fires_powers_down reliable 0%nat
              {| _timeout := 10; _task := 0 |} w eq_refl eq_refl eq_refl)
    as (Ht & _ & Hs & Htm & _).
  { apply runs_clean_no_failure. reflexivity. }
  split; [reflexivity|]. split; [exact Ht|]. split; [exact Hs | exact Htm].
Defined.

Lemma stream_idle_dominates_mute_witness :
  let w := run reliable [Update playing] (initial strip) in
  let w' := snd (update reliable muted_stopped w) in
  _state (controller w) = ACTIVE /\
  _state (controller w') = IDLE_COUNTDOWN /\
  _timer (controller w') = Some {| _timeout := 10; _task := 0 |}.
Proof.
  intros w w'.
  destruct (stream_idle_dominates_mute reliable muted_stopped w
              eq_refl eq_refl) as (_ & _ & _ & H & _).
  destruct H as (Hs & Ht & _); [left; reflexivity|].
  split; [reflexivity|]. split; [exact Hs | exact Ht].
Defined.

Lemma cancelled_timer_never_powers_down_witness :
  let w := run reliable [Update playing; Update stopped] (initial strip) in
  let w' := snd (update reliable playing w) in
  status_of w 0 = Some Sleeping /\
  _state (controller w') = ACTIVE /\
  status_of (run reliable [TimerElapsed 0; Update stopped] w') 0
    = Some Cancelled /\
  forall c, ~ In (TimerTask 0, c)
              (trace (run reliable [TimerElapsed 0; Update stopped] w')).
Proof.
  intros w w'.
  destruct (cancelled_timer_never_powers_down reliable strip playing
              {| _timeout := 10; _task := 0 |} w
              (ex_intro _ [Update playing; Update stopped] eq_refl)
              eq_refl eq_refl eq_refl eq_refl)
    as (_ & Hs & _ & _ & H).
  destruct (H [TimerElapsed 0%nat; Update stopped]) as [H1 H2].
  split; [reflexivity|]. split; [exact Hs|]. split; [exact H1 | exact H2].
Defined.

Lemma idle_samples_change_nothing_witness :
  let w := run reliable [Update playing; Update stopped] (initial strip) in
  _state (controller w) = IDLE_COUNTDOWN /\
  status_of w 0 = Some Sleeping /\
  run reliable [Update stopped; Update muted_stopped; Update stopped] w = w.
Proof.
  intros w.
  destruct (idle_samples_change_nothing reliable
              [stopped; muted_stopped; stopped] w) as [_ H].
  - right; reflexivity.
  - repeat constructor.
  - split; [reflexivity|]. split; [reflexivity | exact H].
Defined.

Lemma muted_sample_starts_long_timer_witness :
  let w := run reliable [Update playing] (initial strip) in
  let w' := snd (update reliable muted_playing w) in
  _state (controller w) = ACTIVE /\
  _state (controller w') = MUTE /\
  _timer (controller w') = Some {| _timeout := 60; _task := 0 |} /\
  trace w' = trace w.
Proof.
  intros w w'.
  destruct (muted_sample_starts_long_timer reliable muted_playing w
              eq_refl eq_refl) as (_ & _ & H).
  destruct H as (Hs & Ht & _ & _ & _ & Htr); [left; reflexivity|].
  split; [reflexivity|]. split; [exact Hs|]. split; [exact Ht | exact Htr].
Defined.

Lemma outlet_failure_aborts_sequencing_witness :
  (let w := initial strip in
   let w' := snd (update B_stays_off playing w) in
   fst (update B_stays_off playing w)
     = Raise (OutletCommandFailure (TurnOn "B")) /\
   trace w' = [(MainLoop, TurnOn "A"); (MainLoop, Sleep 1);
               (MainLoop, TurnOn "B")] /\
   _state (controller w') = IDLE) /\
  (let w := run B_stays_on [Update playing; Update stopped] (initial strip) in
   let w' := AsyncTimer__run B_stays_on 0 w in
   status_of w' 0 = Some (Raised (OutletCommandFailure (TurnOff "B"))) /\
   trace w' = trace w ++ [(TimerTask 0, TurnOff "C"); (TimerTask 0, Sleep 1);
                          (TimerTask 0, TurnOff "B")] /\
   _state (controller w') = IDLE_COUNTDOWN).
Proof.
  split.
  - intros w w'.
    destruct (outlet_failure_aborts_sequencing B_stays_off PowerUp MainLoop
                ["A"] "B" ["C"] w eq_refl)
      as (_ & Ht & _ & _ & _ & H).
    + apply runs_clean_no_failure. reflexivity.
    + reflexivity.
    + destruct (H playing eq_refl eq_refl eq_refl) as [Hu Hs].
      subst w'. rewrite Hu. cbn [fst snd].
      split; [reflexivity|]. split; [exact Ht | exact Hs].
  - intros w w'.
    destruct (outlet_failure_aborts_sequencing B_stays_on PowerDown
                (TimerTask 0) ["C"] "B" ["A"] w eq_refl)
      as (_ & _ & _ & _ & _ & H).
    + apply runs_clean_no_failure. reflexivity.
    + reflexivity.
    + destruct (H 0%nat eq_refl eq_refl) as (Hc & Hs & Ht).
      split; [exact Hs|]. split; [exact Ht|].
      subst w'. now rewrite Hc.
Defined.

(** C8 as stated fails: outlet B refuses to switch off when the 10-second
    timer fires, the power-down stops after outlet C, and the next sample
    with the stream idle, arriving in [IDLE_COUNTDOWN], schedules nothing. *)
Lemma power_down_not_reattempted : ~ power_down_reattempted B_stays_on.
Proof.
  intros H.
  specialize (H strip [Update playing; Update stopped] 0%nat
                (OutletCommandFailure (TurnOff "B")) stopped
                eq_refl eq_refl eq_refl).
  apply H. reflexivity.
Qed.

Lemma retry_after_outlet_failure_witness :
  (let w' := snd (update B_slow_start playing (initial strip)) in
   let w'' := snd (update B_slow_start playing w') in
   fst (update B_slow_start playing (initial strip))
     = Raise (OutletCommandFailure (TurnOn "B")) /\
   _state (controller w') = IDLE /\
   trace w'' = trace w' ++ [(MainLoop, TurnOn "A"); (MainLoop, Sleep 1);
                            (MainLoop, TurnOn "B"); (MainLoop, Sleep 1);
                            (MainLoop, TurnOn "C"); (MainLoop, Sleep 1)] /\
   _state (controller w'') = ACTIVE) /\
  (let w := run B_stays_on [Update playing; Update muted_playing]
              (initial strip) in
   let w' := AsyncTimer__run B_stays_on 0 w in
   let w'' := snd (update B_stays_on stopped w') in
   _state (controller w') = MUTE /\
   _state (controller w'') = IDLE_COUNTDOWN /\
   pending w'' = [{| delay := 10; status := Sleeping |}]) /\
  (let w := run B_stays_on [Update playing; Update stopped] (initial strip) in
   let w' := AsyncTimer__run B_stays_on 0 w in
   _state (controller w') = IDLE_COUNTDOWN /\
   update B_stays_on stopped w' = (Ok tt, w') /\
   pending w' = []).
Proof.
  split; [|split].
  - intros w' w''.
    destruct (retry_after_outlet_failure B_slow_start strip (initial strip)
                (ex_intro _ [] eq_refl)) as [H _].
    destruct (H playing playing (OutletCommandFailure (TurnOn "B")) w'
                eq_refl eq_refl eq_refl eq_refl) as (Hs & _ & H').
    destruct H' as (_ & Ht & Hs').
    { apply runs_clean_no_failure. reflexivity. }
    split; [reflexivity|]. split; [exact Hs|]. split; [exact Ht | exact Hs'].
  - intros w w' w''.
    destruct (retry_after_outlet_failure B_stays_on strip w
                (ex_intro _ [Update playing; Update muted_playing] eq_refl))
      as [_ H].
    destruct (H 0%nat (OutletCommandFailure (TurnOff "B")) stopped
                eq_refl eq_refl eq_refl) as (_ & H' & _).
    destruct (H' eq_refl) as (Hs & _ & Hp).
    split; [reflexivity|]. split; [exact Hs | exact Hp].
  - intros w w'.
    destruct (retry_after_outlet_failure B_stays_on strip w
                (ex_intro _ [Update playing; Update stopped] eq_refl))
      as [_ H].
    destruct (H 0%nat (OutletCommandFailure (TurnOff "B")) stopped
                eq_refl eq_refl eq_refl) as (_ & _ & H').
    destruct (H' eq_refl) as [Hu Hp].
    split; [reflexivity|]. split; [exact Hu | exact Hp].
Defined.

(** ** The start of [run] *)

Lemma find_first_match {A} (P : A -> bool) (l : list A) (x : A) :
  List.find P l = Some x <-> Monitor.first_match P l x.
Proof.
  unfold Monitor.first_match. induction l as [|a l IH]; cbn.
  - split; [discriminate|]. intros (pre & post & E & _). now destruct pre.
  - destruct (P a) eqn:Pa.
    + split.
      * intros [= ->]. exists [], l. repeat split; auto. intros y [].
      * intros (pre & post & E & Px & Hpre). destruct pre as [|b pre].
        -- cbn in E. congruence.
        -- cbn in E. injection E as <- _.
           rewrite (Hpre a) in Pa by now left. discriminate.
    + rewrite IH. split.
      * intros (pre & post & -> & Px & Hpre). exists (a :: pre), post.
        repeat split; auto. intros y [<-|Hy]; auto.
      * intros (pre & post & E & Px & Hpre). destruct pre as [|b pre].
        -- cbn in E. injection E as -> _. congruence.
        -- cbn in E. injection E as _ ->. exists pre, post.
           repeat split; auto. intros y Hy. apply Hpre. now right.
Qed.

Lemma option_string_eqb_eq (a b : option string) :
  Monitor.option_string_eqb a b = true <-> a = b.
Proof.
  destruct a as [x|], b as [y|]; cbn; try (split; congruence).
  rewrite String.eqb_eq. split; congruence.
Qed.

(** X6. [run] reaches its loop exactly when a Kasa device name and a
    hostname were given, some discovered device has that alias, the
    connection to the server succeeded and some client of the server has
    the client name given.  The controller is then built on the first
    discovered device with the alias, and the client polled is the first
    one with the name. *)
Theorem setup_ready (args : Monitor.Args)
    (devices : list (string * Monitor.Discovered))
    (server : option (list Monitor.Snapclient))
    (found : Monitor.Discovered) (snapclient : Monitor.Snapclient) :
  Monitor.setup args devices server = Monitor.Ready found snapclient <->
  Monitor.kasa_device args <> None /\
  Monitor.hostname args <> None /\
  Monitor.client args = Some (Monitor.friendly_name snapclient) /\
  Monitor.first_match
    (fun d => Monitor.option_string_eqb (Monitor.alias d)
                (Monitor.kasa_device args))
    (map snd devices) found /\
  exists clients,
    server = Some clients /\
    Monitor.first_match
      (fun c => Monitor.option_string_eqb (Some (Monitor.friendly_name c))
                  (Monitor.client args))
      clients snapclient.
Proof.
  unfold Monitor.setup.
  destruct (Monitor.kasa_device args) as [name|] eqn:Ek; cbn [Monitor.is_None].
  2: { split; [discriminate|]. intros [H _]. congruence. }
  destruct (Monitor.hostname args) as [host|] eqn:Eh; cbn [Monitor.is_None].
  2: { split; [discriminate|]. intros (_ & H & _). congruence. }
  destruct (List.find _ (map snd devices)) as [d|] eqn:Ed.
  2: { split; [discriminate|]. intros (_ & _ & _ & H & _).
       apply find_first_match in H. congruence. }
  destruct server as [clients|].
  2: { split; [discriminate|]. intros (_ & _ & _ & _ & cl & H & _).
       discriminate. }
  destruct (List.find _ clients) as [c|] eqn:Ec.
  2: { split; [discriminate|]. intros (_ & _ & _ & _ & cl & [= <-] & H).
       apply find_first_match in H. congruence. }
  split.
  - intros [= <- <-]. apply find_first_match in Ed as Hd.
    apply find_first_match in Ec as Hc.
    do 2 (split; [discriminate|]). split.
    + destruct Hc as (_ & _ & _ & Hc & _).
      now apply option_string_eqb_eq in Hc.
    + split; [exact Hd|]. exists clients. auto.
  - intros (_ & _ & _ & Hd & cl & [= <-] & Hc).
    apply find_first_match in Hd, Hc. congruence.
Qed.

(** X7. When [run] stops before its loop, the exit status is 0 exactly
    when both names were given and no discovered device has the alias
    asked for; in every other case it is 1.  The third check of the
    arguments tests the hostname again, so it never fires: [run] never
    stops for a client name that was not supplied. *)
Theorem setup_exit_status (args : Monitor.Args)
    (devices : list (string * Monitor.Discovered))
    (server : option (list Monitor.Snapclient)) (stop : Monitor.Stop) :
  Monitor.setup args devices server = Monitor.Exit stop ->
  stop <> Monitor.ClientNameNotSupplied /\
  (Monitor.exit_status stop = 1 \/ Monitor.exit_status stop = 0) /\
  (Monitor.exit_status stop = 0 <->
   Monitor.kasa_device args <> None /\
   Monitor.hostname args <> None /\
   forall d, In d (map snd devices) ->
             Monitor.alias d <> Monitor.kasa_device args).
Proof.
  unfold Monitor.setup.
  destruct (Monitor.kasa_device args) as [name|] eqn:Ek; cbn [Monitor.is_None].
  2: { intros [= <-]. cbn. split; [discriminate|]. split; [now left|].
       split; [discriminate|]. intros [H _]. congruence. }
  destruct (Monitor.hostname args) as [host|] eqn:Eh; cbn [Monitor.is_None].
  2: { intros [= <-]. cbn. split; [discriminate|]. split; [now left|].
       split; [discriminate|]. intros (_ & H & _). congruence. }
  destruct (List.find _ (map snd devices)) as [d|] eqn:Ed.
  - assert (Hd : ~ forall d', In d' (map snd devices) ->
                              Monitor.alias d' <> Some name).
    { intros H. apply find_some in Ed as [Hin Hal].
      apply option_string_eqb_eq in Hal. exact (H d Hin Hal). }
    destruct server as [clients|].
    + destruct (List.find _ clients); [discriminate|].
      intros [= <-]. cbn. split; [discriminate|]. split; [now left|].
      split; [discriminate|]. intros (_ & _ & H). contradiction.
    + intros [= <-]. cbn. split; [discriminate|]. split; [now left|].
      split; [discriminate|]. intros (_ & _ & H). contradiction.
  - intros [= <-]. cbn. split; [discriminate|]. split; [now right|].
    split; [|reflexivity]. intros _. do 2 (split; [discriminate|]).
    intros d Hin Hal. apply (find_none _ _ Ed) in Hin.
    apply option_string_eqb_eq in Hal. congruence.
Qed.

(** X8. A client name that was not supplied is found out late.  With a
    device name and a hostname but no client name, [run] still discovers
    the devices and connects; if both succeed it stops with "client not
    found", whatever the clients of the server are. *)
Theorem setup_without_client_name (args : Monitor.Args)
    (devices : list (string * Monitor.Discovered))
    (clients : list Monitor.Snapclient) (found : Monitor.Discovered) :
  Monitor.client args = None ->
  Monitor.hostname args <> None ->
  In found (map snd devices) ->
  Monitor.alias found = Monitor.kasa_device args ->
  Monitor.alias found <> None ->
  Monitor.setup args devices (Some clients) = Monitor.Exit Monitor.ClientNotFound.
Proof.
  intros Hc Hh Hin Hal Hn. unfold Monitor.setup.
  destruct (Monitor.kasa_device args) as [name|] eqn:Ek; [|congruence].
  destruct (Monitor.hostname args) as [host|] eqn:Eh; [|congruence].
  cbn [Monitor.is_None].
  destruct (List.find _ (map snd devices)) as [d|] eqn:Ed.
  - rewrite Hc.
    destruct (List.find _ clients) as [c|] eqn:Ec; [|reflexivity].
    apply find_some in Ec as [_ Ec]. discriminate.
  - apply (find_none _ _ Ed) in Hin. rewrite Hal in Hin. cbn in Hin.
    rewrite String.eqb_refl in Hin. discriminate.
Qed.

(** ** The MPRIS proxy *)

Lemma PlaybackStatus_eqb_eq (a b : Proxy.PlaybackStatus) :
  Proxy.PlaybackStatus_eqb a b = true <-> a = b.
Proof. destruct a, b; cbn; split; intro H; congruence. Qed.

Lemma PlaybackStatus_value_inj (a b : Proxy.PlaybackStatus) :
  Proxy.PlaybackStatus_value a = Proxy.PlaybackStatus_value b -> a = b.
Proof. destruct a, b; cbn; congruence. Qed.

Lemma setter_status (status : Proxy.PlaybackStatus)
    (self : Proxy.MediaPlayer2PlayerInterface) :
  Proxy._playback_status (Proxy.playback_status_setter status self) = status.
Proof.
  unfold Proxy.playback_status_setter.
  destruct (Proxy.PlaybackStatus_eqb _ _) eqn:E; [|reflexivity].
  now apply PlaybackStatus_eqb_eq in E.
Qed.

Lemma no_repeat_snoc {A} (d x : A) (l : list A) :
  Proxy.no_repeat l ->
  (l <> [] -> List.last l d <> x) ->
  Proxy.no_repeat (l ++ [x]).
Proof.
  induction l as [|a [|b l] IH]; intros Hl Hx.
  - exact I.
  - cbn. split; [|exact I]. apply Hx. discriminate.
  - destruct Hl as [Hab Hl]. split; [exact Hab|].
    apply IH; [exact Hl|]. intros _. apply Hx. discriminate.
Qed.

Lemma last_cons_default {A} (d d' : A) (l : list A) :
  List.last (d :: l) d' = List.last l d.
Proof.
  revert d d'. induction l as [|a l IH]; intros d d'; [reflexivity|].
  change (List.last (d :: a :: l) d') with (List.last (a :: l) d').
  rewrite !(IH a). reflexivity.
Qed.

Lemma setter_announced (status : Proxy.PlaybackStatus)
    (self : Proxy.MediaPlayer2PlayerInterface) :
  let self' := Proxy.playback_status_setter status self in
  Proxy.no_repeat (Proxy.announced self) ->
  List.last (Proxy.announced self) [] = [("PlaybackStatus", Proxy.playback_status self)] ->
  Proxy.no_repeat (Proxy.announced self') /\
  List.last (Proxy.announced self') [] = [("PlaybackStatus", Proxy.playback_status self')] /\
  (length (Proxy.emitted self') <= S (length (Proxy.emitted self)))%nat.
Proof.
  unfold Proxy.playback_status_setter.
  destruct (Proxy.PlaybackStatus_eqb _ _) eqn:E; cbv zeta; intros Hn Hl.
  - auto.
  - unfold Proxy.announced in *. cbn [Proxy.emitted Proxy._playback_status]. split; [|split].
    + rewrite app_comm_cons. apply (no_repeat_snoc []); [exact Hn|].
      intros _ Hx. pose proof (eq_trans (eq_sym Hl) Hx) as H.
      injection H as H. apply PlaybackStatus_value_inj in H.
      apply PlaybackStatus_eqb_eq in H. congruence.
    + rewrite app_comm_cons. apply last_last.
    + rewrite length_app. cbn. lia.
Qed.

Lemma setter_fold_player (statuses : list Proxy.PlaybackStatus) : forall p,
  Proxy.no_repeat (Proxy.announced p) ->
  List.last (Proxy.announced p) [] = [("PlaybackStatus", Proxy.playback_status p)] ->
  let self := fold_left (fun p s => Proxy.playback_status_setter s p)
                statuses p in
  Proxy._playback_status self = List.last statuses (Proxy._playback_status p) /\
  Proxy.no_repeat (Proxy.announced self) /\
  List.last (Proxy.announced self) [] = [("PlaybackStatus", Proxy.playback_status self)] /\
  (length (Proxy.emitted self) <= length (Proxy.emitted p) + length statuses)%nat.
Proof.
  induction statuses as [|s rest IH]; intros p Hn Hl.
  - cbn. repeat split; auto. lia.
  - destruct (setter_announced s p Hn Hl) as (Hn' & Hl' & Hlen).
    destruct (IH _ Hn' Hl') as (H1 & H2 & H3 & H4).
    cbn [fold_left]. split; [|split; [exact H2|split; [exact H3|]]].
    + rewrite H1, setter_status. symmetry. apply last_cons_default.
    + cbn [length]. lia.
Qed.

(** X9. The setter of [PlaybackStatus] announces changes and nothing else.
    After any sequence of assignments to a new interface, the property
    reads as the last value assigned ("Stopped" if there was none); no two
    successive [PropertiesChanged] signals carry the same value and the
    first one does not carry "Stopped"; the last signal carries the
    current value; and there are at most as many signals as assignments. *)
Theorem playback_status_announces_changes (statuses : list Proxy.PlaybackStatus) :
  let self := fold_left (fun p s => Proxy.playback_status_setter s p) statuses
                Proxy.MediaPlayer2PlayerInterface___init__ in
  Proxy.playback_status self
    = Proxy.PlaybackStatus_value (List.last statuses Proxy.STOPPED) /\
  Proxy.no_repeat ([("PlaybackStatus", "Stopped")] :: Proxy.emitted self) /\
  List.last (Proxy.emitted self) [("PlaybackStatus", "Stopped")]
    = [("PlaybackStatus", Proxy.playback_status self)] /\
  (length (Proxy.emitted self) <= length statuses)%nat.
Proof.
  intros self.
  destruct (setter_fold_player statuses
              Proxy.MediaPlayer2PlayerInterface___init__)
    as (H1 & H2 & H3 & H4); [exact I | reflexivity |].
  fold self in H1, H2, H3, H4.
  split; [unfold Proxy.playback_status; now rewrite H1|].
  split; [exact H2|]. split; [|exact H4].
  etransitivity; [|exact H3]. symmetry. apply last_cons_default.
Qed.

Lemma set_status_from_eq (client : Proxy.Client)
    (player : Proxy.MediaPlayer2PlayerInterface) :
  Proxy.set_status_from client player =
  Proxy.playback_status_setter (Proxy.status_for client) player.
Proof.
  unfold Proxy.set_status_from, Proxy.status_for, Proxy.client_idle.
  destruct (Proxy.muted client), (Proxy.stream_idle client); reflexivity.
Qed.

(** X10. What the proxy reports for a client does not depend on what it
    reported before.  After a turn of the loop with a fetched status the
    property is "Playing" exactly when the client is not muted and has a
    group whose stream is not idle; "Paused" exactly when it is muted and
    has a group whose stream is not idle; "Stopped" exactly when it has no
    group or the stream of its group is idle.  A client without a group is
    reported stopped, and an idle stream wins over the mute. *)
Theorem reported_status (client : Proxy.Client)
    (player : Proxy.MediaPlayer2PlayerInterface) :
  let status := Proxy._playback_status (Proxy.set_status_from client player) in
  let streaming :=
    exists g, Proxy.group client = Some g /\ stream_status g <> "idle" in
  (status = Proxy.PLAYING <-> Proxy.muted client = false /\ streaming) /\
  (status = Proxy.PAUSED <-> Proxy.muted client = true /\ streaming) /\
  (status = Proxy.STOPPED <-> ~ streaming).
Proof.
  intros status streaming. subst status.
  rewrite set_status_from_eq, setter_status.
  unfold Proxy.status_for, Proxy.client_idle, Proxy.stream_idle.
  assert (Hs : streaming <->
               match Proxy.group client with
               | Some g => String.eqb (stream_status g) "idle"
               | None => true
               end = false).
  { unfold streaming. destruct (Proxy.group client) as [g|].
    - rewrite String.eqb_neq. split.
      + intros (g' & [= <-] & H). exact H.
      + intros H. exists g. auto.
    - split; [intros (g & E & _); discriminate | discriminate]. }
  rewrite Hs.
  destruct (Proxy.muted client);
    destruct (match Proxy.group client with
              | Some g => String.eqb (stream_status g) "idle"
              | None => true
              end); cbn; intuition congruence.
Qed.

Lemma _reconnect_retry_failures (failures : nat) (starts : list Proxy.StartOutcome) :
  Proxy._reconnect_retry (repeat Proxy.StartOSError failures ++ starts) =
  (fst (Proxy._reconnect_retry starts),
   concat (repeat [Proxy.ServerStart; Proxy.AsyncioSleep 2000] failures)
   ++ snd (Proxy._reconnect_retry starts)).
Proof.
  induction failures as [|n IH]; cbn.
  - now destruct (Proxy._reconnect_retry starts).
  - now rewrite IH.
Qed.

(** X11. [_reconnect] stops the server once and then calls [start] until
    it succeeds: after each [OSError] it sleeps two seconds and tries
    again, however many times; it returns right after the first call
    that succeeds, without sleeping; an exception that is not an
    [OSError] is not caught. *)
Theorem _reconnect_retries (failures : nat) (rest : list Proxy.StartOutcome) :
  let retries :=
    concat (repeat [Proxy.ServerStart; Proxy.AsyncioSleep 2000] failures) in
  Proxy._reconnect (repeat Proxy.StartOSError failures ++ Proxy.Started :: rest)
    = (Proxy.Returned, Proxy.ServerStop :: retries ++ [Proxy.ServerStart]) /\
  Proxy._reconnect
    (repeat Proxy.StartOSError failures ++ Proxy.StartOtherError :: rest)
    = (Proxy.Raised, Proxy.ServerStop :: retries ++ [Proxy.ServerStart]) /\
  Proxy._reconnect (repeat Proxy.StartOSError failures)
    = (Proxy.Running, Proxy.ServerStop :: retries).
Proof.
  intros retries. unfold Proxy._reconnect. repeat split.
  - now rewrite _reconnect_retry_failures.
  - now rewrite _reconnect_retry_failures.
  - rewrite <- (app_nil_r (repeat _ failures)), _reconnect_retry_failures.
    cbn. now rewrite app_nil_r.
Qed.

Lemma run_loop_player (polls : list Proxy.Poll) : forall w,
  Proxy.all_reconnect polls ->
  fst (Proxy.run_loop polls w) = Proxy.Running /\
  Proxy.player (snd (Proxy.run_loop polls w)) =
  fold_left (fun p s => Proxy.playback_status_setter s p)
    (map Proxy.status_for (Proxy.fetched polls)) (Proxy.player w).
Proof.
  induction polls as [|poll rest IH]; intros w Hall; [now split|].
  assert (Hrest : Proxy.all_reconnect rest).
  { intros starts Hin. apply Hall. now right. }
  destruct poll as [starts|client]; cbn [Proxy.run_loop Proxy.turn].
  - destruct (Hall starts) as (n & tl & ->); [now left|].
    unfold Proxy._reconnect. rewrite _reconnect_retry_failures.
    cbn [Proxy._reconnect_retry fst snd].
    cbn [Proxy.fetched flat_map app].
    apply (IH {| Proxy.player := Proxy.player w;
                 Proxy.actions := Proxy.actions w ++ _ |} Hrest).
  - cbn [Proxy.fetched flat_map app map fold_left].
    rewrite <- set_status_from_eq.
    apply (IH {| Proxy.player := Proxy.set_status_from client (Proxy.player w);
                 Proxy.actions := Proxy.actions w ++ _ |} Hrest).
Qed.

(** X12. The proxy shows the latest status it could fetch.  Over any
    sequence of polls whose reconnections succeed, started with a new
    interface, the loop keeps running; the property then reads as the
    status called for by the client of the last successful poll
    ("Stopped" if there was none); a poll that fails changes nothing and
    emits nothing, so there are at most as many signals as successful
    polls; and no two successive signals carry the same value. *)
Theorem run_loop_reports_last_fetch (polls : list Proxy.Poll) :
  Proxy.all_reconnect polls ->
  let w0 := {| Proxy.player := Proxy.MediaPlayer2PlayerInterface___init__;
               Proxy.actions := [] |} in
  let self := Proxy.player (snd (Proxy.run_loop polls w0)) in
  fst (Proxy.run_loop polls w0) = Proxy.Running /\
  Proxy.playback_status self
    = Proxy.PlaybackStatus_value
        (List.last (map Proxy.status_for (Proxy.fetched polls)) Proxy.STOPPED) /\
  (length (Proxy.emitted self) <= length (Proxy.fetched polls))%nat /\
  Proxy.no_repeat ([("PlaybackStatus", "Stopped")] :: Proxy.emitted self).
Proof.
  intros Hall w0 self. subst self.
  destruct (run_loop_player polls w0 Hall) as [Hrun ->].
  split; [exact Hrun|].
  destruct (setter_fold_player (map Proxy.status_for (Proxy.fetched polls))
              (Proxy.player w0)) as (H1 & H2 & _ & H4);
    [exact I | reflexivity |].
  unfold Proxy.playback_status. rewrite H1.
  split; [reflexivity|]. split; [|exact H2].
  rewrite length_map in H4. exact H4.
Qed.

(** X13. The proxy and the monitor read a sample alike.  For the same
    client, whatever the controller's world and the player's status were:
    when the update leaves the controller in [ACTIVE] the proxy reports
    "Playing", in [MUTE] "Paused", in [IDLE_COUNTDOWN] "Stopped";
    conversely a client reported "Playing" leaves the controller in
    [ACTIVE] unless the power-up failed, one reported "Paused" in [MUTE]
    or [IDLE], one reported "Stopped" in [IDLE_COUNTDOWN] or [IDLE]. *)
Theorem proxy_agrees_with_monitor (outlet_fails : list Entry -> Call -> bool)
    (client : Client) (w : World) (player : Proxy.MediaPlayer2PlayerInterface) :
  let status :=
    Proxy._playback_status (Proxy.set_status_from (as_polled client) player) in
  let w' := snd (update outlet_fails client w) in
  (_state (controller w') = ACTIVE -> status = Proxy.PLAYING) /\
  (_state (controller w') = MUTE -> status = Proxy.PAUSED) /\
  (_state (controller w') = IDLE_COUNTDOWN -> status = Proxy.STOPPED) /\
  (status = Proxy.PLAYING ->
   _state (controller w') = ACTIVE \/
   (_state (controller w') = IDLE /\
    exists e, fst (update outlet_fails client w) = Raise e)) /\
  (status = Proxy.PAUSED ->
   _state (controller w') = MUTE \/ _state (controller w') = IDLE) /\
  (status = Proxy.STOPPED ->
   _state (controller w') = IDLE_COUNTDOWN \/ _state (controller w') = IDLE).
Proof.
  intros status w'. subst status w'.
  rewrite set_status_from_eq, setter_status.
  assert (Hfor : Proxy.status_for (as_polled client) =
                 if negb (client_idle client) then Proxy.PLAYING
                 else if stream_idle client then Proxy.STOPPED
                 else Proxy.PAUSED) by reflexivity.
  rewrite Hfor. clear Hfor.
  destruct (client_idle client) eqn:Hc; cbn [negb].
  - unfold client_idle in Hc.
    destruct (stream_idle client) eqn:Hi.
    + destruct (_state (controller w)) eqn:Hs.
      1-2: rewrite update_stream_idle_rest by auto; cbn [fst snd]; rewrite Hs.
      3: rewrite update_stream_idle_from_mute by assumption.
      4: rewrite update_stream_idle_from_active by assumption.
      all: cbn; repeat split; intros; try congruence; auto.
    + rewrite orb_false_r in Hc.
      destruct (_state (controller w)) eqn:Hs.
      1,3: rewrite update_muted_rest by auto; cbn [fst snd]; rewrite Hs.
      3,4: rewrite update_muted_arm by auto.
      all: cbn; repeat split; intros; try congruence; auto.
  - destruct (_state (controller w)) eqn:Hs.
    2-4: rewrite update_playing by congruence; cbn [fst snd];
         rewrite _state_drop_timer; cbn;
         repeat split; intros; try congruence; auto.
    rewrite update_power_up, _turn_on_eq by assumption.
    destruct (power_loop_outcome outlet_fails MainLoop TurnOn
                (children (_device (controller w))) w)
      as [-> | (pre & p & post & _ & _ & ->)]; cbn [fst snd].
    + rewrite _state_drop_timer. cbn.
      repeat split; intros; try congruence; auto.
    + cbn. rewrite Hs. repeat split; intros; try congruence.
      right. split; [reflexivity|]. eauto.
Qed.

(** ** The new scenarios, run *)






Lemma setup_exit_status_witness :
  Monitor.setup full_args [] (Some snapclients)
    = Monitor.Exit Monitor.KasaDeviceNotFound /\
  Monitor.exit_status Monitor.KasaDeviceNotFound = 0 /\
  Monitor.setup full_args discovered None = Monitor.Exit Monitor.ConnectFailed /\
  Monitor.exit_status Monitor.ConnectFailed <> 0.
Proof.
  destruct (setup_exit_status full_args [] (Some snapclients)
              Monitor.KasaDeviceNotFound eq_refl) as (_ & _ & H).
  destruct (setup_exit_status full_args discovered None
              Monitor.ConnectFailed eq_refl) as (_ & _ & H').
  split; [reflexivity|]. split.
  - apply H. do 2 (split; [discriminate|]). intros d [].
  - split; [reflexivity|]. intros H0. apply H' in H0 as (_ & _ & H0).
    apply (H0 amplifier); [right; left; reflexivity | reflexivity].
Defined.

Lemma setup_without_client_name_witness :
  Monitor.setup args_without_client discovered (Some snapclients)
    = Monitor.Exit Monitor.ClientNotFound.
Proof.
  apply (setup_without_client_name args_without_client discovered snapclients
           amplifier).
  - reflexivity.
  - discriminate.
  - right; left; reflexivity.
  - reflexivity.
  - discriminate.
Defined.

Lemma run_loop_reports_last_fetch_witness :
  let polls := [Proxy.Status (as_polled playing); lost_twice;
                Proxy.Status ungrouped; Proxy.Status ungrouped] in
  let w0 := {| Proxy.player := Proxy.MediaPlayer2PlayerInterface___init__;
               Proxy.actions := [] |} in
  let self := Proxy.player (snd (Proxy.run_loop polls w0)) in
  Proxy.playback_status self = "Stopped" /\
  Proxy.emitted self = [[("PlaybackStatus", "Playing")];
                        [("PlaybackStatus", "Stopped")]].
Proof.
  intros polls w0 self.
  destruct (run_loop_reports_last_fetch polls) as (_ & Hs & _).
  - intros starts [H | [H | [H | [H | []]]]]; try discriminate.
    injection H as <-. exists 2%nat, []. reflexivity.
  - split; [exact Hs | reflexivity].
Defined.
